(** * Prep-A-Thon 2024: the two QAOA traffic solvers

    A shallow embedding of [src/solver/signal-solver.py] and
    [src/solver/path-rerouting-solver.py], and the properties their
    specification states about them.

    Number model.  Python [int]s are [Z]; the vectors the functions
    receive hold [int]s, as the scripts' own data do.  Python [float]s and the
    entries of the NumPy [float64] cost matrices are IEEE 754 binary64
    numbers: [spec_float] with 53 bits of precision and exponents up to
    1024, with the operations of the standard library's [SpecFloat]
    (rounding to nearest, ties to even; infinities and NaN included).
    An [int] that meets a [float] is converted first, which raises
    [OverflowError] when it is too large.

    [np.zeros] can fail: whether an array of a given shape can be
    allocated is a property of the [Machine] the script runs on.

    Exceptions are values of [exn]; a function that can raise returns a
    [result]. *)

From Stdlib Require Import ZArith QArith Qpower Lia Zpower Pnat SpecFloat.
From Stdlib Require Import Ascii String.
From stdpp Require Import base list strings gmap sorting.

Local Open Scope Z_scope.

(** ** Exceptions and the result monad *)

Inductive exn : Type :=
  | IndexError
  | KeyError
  | NameError
  | ZeroDivisionError
  | OverflowError
  | MemoryError
  | CircuitError
  | ValueError (msg : string).

Inductive result (A : Type) : Type :=
  | Ok (a : A)
  | Raise (e : exn).

Arguments Ok {A} a.
Arguments Raise {A} e.

Definition bind {A B : Type} (m : result A) (k : A → result B) : result B :=
  match m with
  | Ok a => k a
  | Raise e => Raise e
  end.

Notation "'let*' x ':=' m 'in' k" := (bind m (fun x => k))
  (at level 10, x name, m at level 100, k at level 200).

Definition raises {A : Type} (m : result A) : Prop :=
  match m with
  | Ok _ => False
  | Raise _ => True
  end.

(** The only exception [r] can raise is [e]. *)
Definition fails_only {A : Type} (e : exn) (r : result A) : Prop :=
  match r with
  | Ok _ => True
  | Raise e' => e' = e
  end.

(** Every exception [r] can raise is one of [P]. *)
Definition fails_among {A : Type} (P : exn → Prop) (r : result A) : Prop :=
  match r with
  | Ok _ => True
  | Raise e => P e
  end.

(** The exceptions of the matrix updates: an index out of range, an
    [int] too large for a float. *)
Definition index_or_overflow (e : exn) : Prop :=
  e = IndexError ∨ e = OverflowError.

(** [for x in xs: s = body(s, x)], stopping at the first exception. *)
Fixpoint for_each {A T : Type} (body : T → A → result T) (xs : list A) (s : T)
    : result T :=
  match xs with
  | [] => Ok s
  | x :: xs' => let* s' := body s x in for_each body xs' s'
  end.

(** [range(n)] *)
Definition range (n : nat) : list nat := seq 0 n.

(** [l[i]] for an index that is not negative. *)
Definition getitem {A : Type} (l : list A) (i : nat) : result A :=
  match l !! i with
  | Some x => Ok x
  | None => Raise IndexError
  end.

(** ** Numbers *)

Definition prec : Z := 53.
Definition emax : Z := 1024.

(** A Python [float], a NumPy [float64]. *)
Abbreviation float64 := spec_float.

Definition f64_add : float64 → float64 → float64 := SFadd prec emax.
Definition f64_div : float64 → float64 → float64 := SFdiv prec emax.

(** The float nearest to an integer (ties to even); an infinity when the
    integer is beyond the largest float. *)
Definition float_of_Z (z : Z) : float64 := binary_normalize prec emax z 0 false.

(** [0.0] *)
Definition pzero : float64 := S754_zero false.

Definition sixty : float64 := float_of_Z 60.

Definition is_zero (x : float64) : bool :=
  match x with
  | S754_zero _ => true
  | _ => false
  end.

Definition is_infinity (x : float64) : bool :=
  match x with
  | S754_infinity _ => true
  | _ => false
  end.


(** A Python number: an [int] or a [float]. *)
Inductive number : Type :=
  | Int (z : Z)
  | Float (x : float64).

(** The conversion applied to an operand of a float operation:
    [float(v)]. *)
Definition as_float (v : number) : result float64 :=
  match v with
  | Float x => Ok x
  | Int z =>
      let x := float_of_Z z in
      if is_infinity x then Raise OverflowError else Ok x
  end.


(** The integers [float] converts without [OverflowError]. *)
Definition fits_float64 (z : Z) : Prop := is_infinity (float_of_Z z) = false.

#[global] Instance fits_float64_dec (z : Z) : Decision (fits_float64 z).
Proof. unfold fits_float64. apply _. Defined.

(** The real number a finite float stands for. *)
Definition float_value (x : float64) : option Q :=
  match x with
  | S754_zero _ => Some 0%Q
  | S754_finite s m e =>
      Some (if s then - (inject_Z (Zpos m) * 2 ^ e) else inject_Z (Zpos m) * 2 ^ e)%Q
  | _ => None
  end.

(** [x] is finite and its value is exactly [q]. *)
Definition denotes (x : float64) (q : Q) : Prop :=
  match float_value x with
  | Some v => (v == q)%Q
  | None => False
  end.

(** A float with a full 53-bit mantissa: finite, not zero, not
    subnormal. *)
Definition normal (x : float64) : Prop :=
  match x with
  | S754_finite _ m e => Zpos (digits2_pos m) = 53 ∧ -1074 ≤ e
  | _ => False
  end.

(** The float with mantissa [m] and exponent [e], or the infinity when
    the exponent is beyond the largest. *)
Definition rounded (sx : bool) (m : positive) (e : Z) : float64 :=
  if e <=? 971 then S754_finite sx m e else S754_infinity sx.

(** The 53-bit mantissa of a positive integer below 2^53, and the float
    of that integer. *)
Definition canonical_mantissa_of (c : positive) : positive :=
  Nat.iter (Z.to_nat (53 - Zpos (digits2_pos c))) xO c.

Definition finite_of_pos (s : bool) (c : positive) : float64 :=
  S754_finite s (canonical_mantissa_of c) (Zpos (digits2_pos c) - 53).

(** ** Matrices *)

Abbreviation matrix := (list (list float64)).

(** What the machine does with [np.zeros((rows, cols))]: the exception
    it raises when it cannot allocate the array, if any. *)
Class Machine : Type := {
  np_zeros_error : nat → nat → option exn
}.

(** [np.zeros((rows, cols))] *)
Definition zeros {M : Machine} (rows cols : nat) : result matrix :=
  match np_zeros_error rows cols with
  | Some e => Raise e
  | None => Ok (replicate rows (replicate cols pzero))
  end.

(** A machine that holds arrays of up to 2^30 cells. *)
Definition workstation : Machine :=
  {| np_zeros_error rows cols :=
       if (N.of_nat rows * N.of_nat cols <=? 2 ^ 30)%N then None
       else Some MemoryError |}.

(** [m[i][j] += v]: the cell is read, [v] is converted, the sum is
    stored. *)
Definition iadd (m : matrix) (i j : nat) (v : number) : result matrix :=
  let* row := getitem m i in
  let* x := getitem row j in
  let* y := as_float v in
  Ok (<[i := <[j := f64_add x y]> row]> m).

(** The entry [m[i][j]], when both indices are in range. *)
Definition entry (m : matrix) (i j : nat) : option float64 :=
  match m !! i with
  | Some row => row !! j
  | None => None
  end.

(** [n × n] matrices. *)
Definition square (n : nat) (m : matrix) : Prop :=
  length m = n ∧ Forall (λ row, length row = n) m.

(** [m] is an [n × n] matrix whose entry [(i, j)] is the float [f i j]. *)
Definition represents (n : nat) (f : nat → nat → float64) (m : matrix) : Prop :=
  square n m ∧
  ∀ i j, (i < n)%nat → (j < n)%nat → entry m i j = Some (f i j).

(** The main diagonal of a square matrix, top left to bottom right. *)
Definition diagonal (m : matrix) : list float64 :=
  imap (λ i row, nth i row pzero) m.

(** ** The circuit builder (the calls the scripts make into Qiskit)

    A circuit is the list of instructions appended to it so far.  The
    mixing angle [np.pi / 2] is the constant [HalfPi]; a phase angle read
    from the cost matrix is [Theta x]. *)

Inductive angle : Type :=
  | Theta (x : float64)
  | HalfPi.

Inductive instruction : Type :=
  | H (qubit : nat)
  | RZ (theta : angle) (qubit : nat)
  | RX (theta : angle) (qubit : nat)
  | Barrier
  | Measure (qubit clbit : nat).

Record QuantumCircuit : Type := mkCircuit {
  num_qubits : nat;
  data : list instruction
}.

(** [QuantumCircuit(n)] *)
Definition new_circuit (n : nat) : QuantumCircuit := mkCircuit n [].

Definition append (ins : instruction) (qc : QuantumCircuit) : QuantumCircuit :=
  mkCircuit (num_qubits qc) (data qc ++ [ins]).

(** [qc.h(qubits)]: one Hadamard per listed qubit; a gate applied to no
    qubit at all is refused. *)
Definition h (qubits : list nat) (qc : QuantumCircuit) : result QuantumCircuit :=
  match qubits with
  | [] => Raise CircuitError
  | _ => Ok (foldl (λ qc q, append (H q) qc) qc qubits)
  end.

Definition rz (theta : angle) (qubit : nat) : QuantumCircuit → QuantumCircuit :=
  append (RZ theta qubit).

Definition rx (theta : angle) (qubit : nat) : QuantumCircuit → QuantumCircuit :=
  append (RX theta qubit).

(** [qc.measure_all()]: a barrier, then qubit [i] measured into bit [i]. *)
Definition measure_all (qc : QuantumCircuit) : QuantumCircuit :=
  foldl (λ qc q, append (Measure q q) qc) (append Barrier qc)
    (range (num_qubits qc)).

(** The body of the inner loop of both [qaoa_*_optimization] functions:
    [qc.rz(cost_hamiltonian[i][i], i); qc.rx(np.pi / 2, i)]. *)
Definition rotation_step (cost_hamiltonian : matrix) (qc : QuantumCircuit)
    (i : nat) : result QuantumCircuit :=
  let* row := getitem cost_hamiltonian i in
  let* c := getitem row i in
  Ok (rx HalfPi i (rz (Theta c) i qc)).

(** The circuit construction of both [qaoa_traffic_optimization] and
    [qaoa_path_optimization], from [QuantumCircuit(n)] to [measure_all()];
    the two functions have the same statements there. *)
Definition qaoa_circuit (n : nat) (cost_hamiltonian : matrix) (p : nat)
    : result QuantumCircuit :=
  let qaoa_circuit := new_circuit n in
  let* qaoa_circuit := h (range n) qaoa_circuit in
  let* qaoa_circuit :=
    for_each (λ qc layer, for_each (rotation_step cost_hamiltonian) (range n) qc)
      (range p) qaoa_circuit in
  Ok (measure_all qaoa_circuit).

(** The instructions one layer appends, given the angles [theta]. *)
Definition layer (theta : nat → float64) (qubits : list nat) : list instruction :=
  qubits ≫= λ i, [RZ (Theta (theta i)) i; RX HalfPi i].

(** The whole instruction list for angles [theta]: one Hadamard per qubit,
    [p] equal layers, the measurement. *)
Definition qaoa_instructions (n p : nat) (theta : nat → float64)
    : list instruction :=
  (H <$> range n)
  ++ mjoin (replicate p (layer theta (range n)))
  ++ Barrier :: ((λ q, Measure q q) <$> range n).

(** The qubit an instruction acts on is one of the first [n]. *)
Definition qubit_in_range (n : nat) (ins : instruction) : Prop :=
  match ins with
  | H q | RZ _ q | RX _ q => (q < n)%nat
  | Barrier => True
  | Measure q c => (q < n)%nat ∧ (c < n)%nat
  end.

(** ** The frequency table and the selection of its most frequent key

    [counts] is the dict returned by [result.get_counts()]: bit-string
    keys in insertion order, each key once. *)

Abbreviation counts := (list (string * Z)).

Definition keys (d : counts) : list string := d.*1.
Definition values (d : counts) : list Z := d.*2.

(** [d[k]] *)
Fixpoint dict_getitem (d : counts) (k : string) : result Z :=
  match d with
  | [] => Raise KeyError
  | (k', v) :: d' => if String.eqb k k' then Ok v else dict_getitem d' k
  end.

(** [max(l)] *)
Definition py_max (l : list Z) : result Z :=
  match l with
  | [] => Raise (ValueError "max() arg is an empty sequence")
  | x :: xs => Ok (foldl Z.max x xs)
  end.

(** [for i in d: if d[i] == optimum: found = i; break] *)
Fixpoint first_with_count (d : counts) (ks : list string) (optimum : Z)
    : result (option string) :=
  match ks with
  | [] => Ok None
  | i :: ks' =>
      let* v := dict_getitem d i in
      if v =? optimum then Ok (Some i) else first_with_count d ks' optimum
  end.

(** The selection made in [__main__] of both scripts; the selected name is
    unbound when the loop assigned nothing. *)
Definition select_optimum (optimization_result : counts) : result string :=
  let* optimum_value := py_max (values optimization_result) in
  let* found := first_with_count optimization_result (keys optimization_result)
                  optimum_value in
  match found with
  | Some i => Ok i
  | None => Raise NameError
  end.

(** The characters of a measured bit-string. *)
Definition binary_bit (c : ascii) : Prop := c = "0"%char ∨ c = "1"%char.

(** ** signal-solver.py *)

Module Signal.

Definition emergency_penalty : Z := 100.

(** One iteration of the loop of [create_cost_hamiltonian]. *)
Definition cost_step (traffic_flows signal_timings : list Z)
    (emergency_flags : list bool) (cost_hamiltonian : matrix) (i : nat)
    : result matrix :=
  let* s := getitem signal_timings i in
  let* f := getitem traffic_flows i in
  let waiting_time := s * f in
  let* cost_hamiltonian := iadd cost_hamiltonian i i (Int waiting_time) in
  let* flag := getitem emergency_flags i in
  if (flag : bool) then iadd cost_hamiltonian i i (Int emergency_penalty)
  else Ok cost_hamiltonian.

Definition create_cost_hamiltonian {M : Machine}
    (traffic_flows signal_timings : list Z) (emergency_flags : list bool)
    : result matrix :=
  let n := length traffic_flows in
  let* cost_hamiltonian := zeros (2 ^ n) (2 ^ n) in
  for_each (cost_step traffic_flows signal_timings emergency_flags)
    (range n) cost_hamiltonian.

(** The circuit [qaoa_traffic_optimization] hands to the simulator. *)
Definition qaoa_traffic_circuit {M : Machine}
    (traffic_flows signal_timings : list Z)
    (emergency_flags : list bool) (p : nat) : result QuantumCircuit :=
  let n := length traffic_flows in
  let* cost_hamiltonian :=
    create_cost_hamiltonian traffic_flows signal_timings emergency_flags in
  qaoa_circuit n cost_hamiltonian p.

(** The dict literal of [decode_signals]. *)
Definition signal_timings : gmap ascii Z :=
  {[ "0"%char := 20; "1"%char := 30; "2"%char := 60 ]}.

Definition decode_step (decoded_timings : list Z) (bit : ascii)
    : result (list Z) :=
  match signal_timings !! bit with
  | Some t => Ok (decoded_timings ++ [t])
  | None =>
      Raise (ValueError ("Unexpected bit '" +:+ String bit "' in binary string."))
  end.

Definition decode_signals (binary_string : string) : result (list Z) :=
  for_each decode_step (list_ascii_of_string binary_string) [].

Section Main.

Context {M : Machine}.

(** The simulator run ([transpile], [run], [get_counts]) is external. *)
Variable simulate : QuantumCircuit → counts.

Definition qaoa_traffic_optimization (traffic_flows signal_timings : list Z)
    (emergency_flags : list bool) (p : nat) : result counts :=
  let* qaoa_circuit :=
    qaoa_traffic_circuit traffic_flows signal_timings emergency_flags p in
  Ok (simulate qaoa_circuit).

(** [__main__]: the decoded timings that are printed last. *)
Definition main : result (list Z) :=
  let traffic_flows := [50; 40; 10] in
  let signal_timings := [30; 60; 20] in
  let emergency_flags := [false; true; false] in
  let* optimization_result :=
    qaoa_traffic_optimization traffic_flows signal_timings emergency_flags 1 in
  let* optimum_signal := select_optimum optimization_result in
  decode_signals optimum_signal.

End Main.

(** *** Vocabulary of the statements about this script *)

(** The integer the loop adds up at diagonal position [i], for [i < n]. *)
Definition waiting_cost (traffic_flows signal_timings : list Z)
    (emergency_flags : list bool) (i : nat) : Z :=
  nth i signal_timings 0 * nth i traffic_flows 0
  + (if nth i emergency_flags false then 100 else 0).

(** The float the loop leaves there: the additions as they are made. *)
Definition stored_cost (traffic_flows signal_timings : list Z)
    (emergency_flags : list bool) (i : nat) : float64 :=
  let x := f64_add pzero (float_of_Z (nth i signal_timings 0 * nth i traffic_flows 0)) in
  if nth i emergency_flags false then f64_add x (float_of_Z emergency_penalty) else x.

(** The sample data of [__main__]. *)
Definition sample_cost {M : Machine} : result matrix :=
  create_cost_hamiltonian [50; 40; 10] [30; 60; 20] [false; true; false].

(** The characters [decode_signals] accepts. *)
Definition timing_bit (c : ascii) : Prop :=
  c = "0"%char ∨ c = "1"%char ∨ c = "2"%char.

(** The map {'0' -> 20, '1' -> 30, '2' -> 60} as a function. *)
Definition timing_of (c : ascii) : Z :=
  if Ascii.eqb c "0" then 20
  else if Ascii.eqb c "1" then 30
  else 60.

#[global] Instance timing_bit_dec (c : ascii) : Decision (timing_bit c).
Proof. unfold timing_bit. apply _. Defined.

End Signal.

(** ** path-rerouting-solver.py *)

Module Path.

Definition distances : list (list Z) :=
  [ [0; 1; 2];
    [1; 0; 1];
    [2; 1; 0] ].

Definition vehicle_speed : Z := 40.

(** [speed / 60.0], then [distance / speed_km_per_min]: an [int] operand
    is converted to a float, and dividing by a float that is zero
    raises. *)
Definition calculate_travel_time (distance speed : number) : result float64 :=
  let* s := as_float speed in
  let speed_km_per_min := f64_div s sixty in
  let* d := as_float distance in
  if is_zero speed_km_per_min then Raise ZeroDivisionError
  else Ok (f64_div d speed_km_per_min).

(** One iteration of the loop over [j]. *)
Definition travel_step (start : Z) (i : nat) (cost_hamiltonian : matrix)
    (j : nat) : result matrix :=
  if bool_decide (Z.of_nat j ≠ start) then
    let* row := getitem distances i in
    let* d := getitem row j in
    let* travel_time := calculate_travel_time (Int d) (Int vehicle_speed) in
    iadd cost_hamiltonian i j (Float travel_time)
  else Ok cost_hamiltonian.

(** One iteration of the loop over [i]. *)
Definition start_step (start : Z) (traffic_flows signal_timings : list Z)
    (n : nat) (cost_hamiltonian : matrix) (i : nat) : result matrix :=
  if bool_decide (Z.of_nat i = start) then
    let* s := getitem signal_timings i in
    let* f := getitem traffic_flows i in
    let waiting_time := s * f in
    let* cost_hamiltonian := iadd cost_hamiltonian i i (Int waiting_time) in
    for_each (travel_step start i) (range n) cost_hamiltonian
  else Ok cost_hamiltonian.

Definition create_path_cost_hamiltonian {M : Machine} (start end_node : Z)
    (traffic_flows signal_timings : list Z) (emergency_flags : list bool)
    : result matrix :=
  let n := length traffic_flows in
  let* cost_hamiltonian := zeros (2 ^ n) (2 ^ n) in
  for_each (start_step start traffic_flows signal_timings n)
    (range n) cost_hamiltonian.

(** The circuit [qaoa_path_optimization] hands to the simulator. *)
Definition qaoa_path_circuit {M : Machine} (start end_node : Z)
    (traffic_flows signal_timings : list Z) (emergency_flags : list bool)
    (p : nat) : result QuantumCircuit :=
  let n := length traffic_flows in
  let* cost_hamiltonian :=
    create_path_cost_hamiltonian start end_node traffic_flows signal_timings
      emergency_flags in
  qaoa_circuit n cost_hamiltonian p.

(** [enumerate(s)] *)
Definition enumerate (s : string) : list (nat * ascii) :=
  imap (λ i c, (i, c)) (list_ascii_of_string s).

(** The loop body; the dict [intersection_mapping] of the source is never
    read. *)
Definition path_step (path : list nat) (item : nat * ascii) : list nat :=
  let '(i, bit) := item in
  if Ascii.eqb bit "1" then path ++ [i] else path.

Definition decode_path (binary_string : string) : list nat :=
  foldl path_step [] (enumerate binary_string).

Section Main.

Context {M : Machine}.

Variable simulate : QuantumCircuit → counts.

Definition qaoa_path_optimization (start end_node : Z)
    (traffic_flows signal_timings : list Z) (emergency_flags : list bool)
    (p : nat) : result counts :=
  let* qaoa_circuit :=
    qaoa_path_circuit start end_node traffic_flows signal_timings
      emergency_flags p in
  Ok (simulate qaoa_circuit).

(** [__main__]: the decoded path that is printed last. *)
Definition main : result (list nat) :=
  let traffic_flows := [1; 0; 0] in
  let signal_timings := [30; 60; 20] in
  let emergency_flags := [false; true; false] in
  let start_node := 0 in
  let end_node := 2 in
  let* optimization_result :=
    qaoa_path_optimization start_node end_node traffic_flows signal_timings
      emergency_flags 1 in
  let* optimum_path := select_optimum optimization_result in
  Ok (decode_path optimum_path).

End Main.

(** *** Vocabulary of the statements about this script *)

(** [vehicle_speed / 60.0] *)
Definition speed_km_per_min : float64 := f64_div (float_of_Z vehicle_speed) sixty.

(** The float [calculate_travel_time(distances[i][j], vehicle_speed)]. *)
Definition travel_minutes (i j : nat) : float64 :=
  f64_div (float_of_Z (nth j (nth i distances []) 0)) speed_km_per_min.

(** What the loops leave in row [i = start]: the waiting time on the
    diagonal, travel times in the other columns below [n], zero beyond. *)
Definition start_row (traffic_flows signal_timings : list Z) (n i j : nat)
    : float64 :=
  if bool_decide (j = i) then
    f64_add pzero (float_of_Z (nth i signal_timings 0 * nth i traffic_flows 0))
  else if bool_decide (j < n)%nat then f64_add pzero (travel_minutes i j)
  else pzero.

End Path.

(** * Properties *)

(** ** Floats: integers below 2^53, doubling, division

    [SpecFloat] defines the operations; the facts about them that the
    scripts rely on are proved here. *)

Lemma digits2_pos_spec (p : positive) :
  (2 ^ (Zpos (digits2_pos p) - 1) <= Zpos p < 2 ^ Zpos (digits2_pos p))%Z.
Proof.
  induction p as [p IH | p IH |]; simpl digits2_pos.
  - rewrite Pos2Z.inj_succ.
    replace (Z.succ (Zpos (digits2_pos p)) - 1) with (Z.succ (Zpos (digits2_pos p) - 1)) by lia.
    rewrite !Z.pow_succ_r by lia. lia.
  - rewrite Pos2Z.inj_succ.
    replace (Z.succ (Zpos (digits2_pos p)) - 1) with (Z.succ (Zpos (digits2_pos p) - 1)) by lia.
    rewrite !Z.pow_succ_r by lia. lia.
  - simpl. lia.
Qed.

(** digits are determined by the bounds *)
Lemma digits2_pos_unique (p : positive) (d : Z) :
  (2 ^ (d - 1) <= Zpos p < 2 ^ d)%Z → (0 < d)%Z → Zpos (digits2_pos p) = d.
Proof.
  intros [Hlo Hhi] Hd. pose proof (digits2_pos_spec p) as [Hlo' Hhi'].
  destruct (Z.lt_trichotomy (Zpos (digits2_pos p)) d) as [Hlt | [-> | Hgt]]; [| done |].
  - exfalso. assert (2 ^ Zpos (digits2_pos p) <= 2 ^ (d - 1))%Z by (apply Z.pow_le_mono_r; lia). lia.
  - exfalso. assert (2 ^ d <= 2 ^ (Zpos (digits2_pos p) - 1))%Z by (apply Z.pow_le_mono_r; lia). lia.
Qed.

Lemma iter_pos_nat {A : Type} (f : A → A) (p : positive) (x : A) :
  SpecFloat.iter_pos f p x = Nat.iter (Pos.to_nat p) f x.
Proof.
  revert x. induction p as [p IH | p IH |]; intros x; simpl SpecFloat.iter_pos.
  - rewrite !IH, Pos2Nat.inj_xI. rewrite <- Nat.iter_add.
    replace (S (2 * Pos.to_nat p)) with (Pos.to_nat p + Pos.to_nat p + 1)%nat by lia.
    rewrite <- (Nat.iter_add _ 1). done.
  - rewrite !IH, Pos2Nat.inj_xO. rewrite <- Nat.iter_add. f_equal. lia.
  - done.
Qed.

Lemma shr_iter_exact (n : nat) (m : positive) :
  Nat.iter n shr_1 (Build_shr_record (Zpos (Nat.iter n xO m)) false false)
  = Build_shr_record (Zpos m) false false.
Proof.
  induction n as [|n IH]; [done |].
  rewrite Nat.iter_succ_r. simpl Nat.iter at 2. simpl shr_1. apply IH.
Qed.

Lemma pos_iter_nat {A} (f : A → A) (x : A) (p : positive) :
  Pos.iter f x p = Nat.iter (Pos.to_nat p) f x.
Proof. apply Pos2Nat.inj_iter. Qed.

Lemma digits2_pos_iter_xO (n : nat) (c : positive) :
  Zpos (digits2_pos (Nat.iter n xO c)) = (Zpos (digits2_pos c) + Z.of_nat n)%Z.
Proof.
  induction n as [|n IH]; [simpl; lia |].
  simpl Nat.iter. simpl digits2_pos. rewrite Pos2Z.inj_succ, IH. lia.
Qed.

Lemma fexp_normal (z : Z) : (-1021 <= z)%Z → fexp prec emax z = (z - 53)%Z.
Proof. intros Hz. unfold fexp, emin, prec, emax. lia. Qed.

Lemma shr_fexp_canonical (m : positive) (e : Z) (l : location) :
  fexp prec emax (Zpos (digits2_pos m) + e) = e →
  shr_fexp prec emax (Zpos m) e l = (shr_record_of_loc (Zpos m) l, e).
Proof.
  intros Hc. unfold shr_fexp. simpl Zdigits2. rewrite Hc, Z.sub_diag. done.
Qed.

(** When the first shift leaves an exact mantissa of 53 bits, that is the
    result. *)
Lemma binary_round_aux_after_shr (sx : bool) (mx ex : Z) (lx : location)
    (m : positive) (e : Z) :
  shr_fexp prec emax mx ex lx = (Build_shr_record (Zpos m) false false, e) →
  Zpos (digits2_pos m) = 53%Z → (-1074 <= e <= 971)%Z →
  binary_round_aux prec emax sx mx ex lx = S754_finite sx m e.
Proof.
  intros Hshr Hd He. unfold binary_round_aux. rewrite Hshr.
  cbn [shr_m loc_of_shr_record round_nearest_even].
  rewrite (shr_fexp_canonical m e loc_Exact).
  - cbn [shr_record_of_loc shr_m].
    destruct (Z.leb_spec e (emax - prec)) as [_ | Hgt]; [done |].
    unfold emax, prec in Hgt. lia.
  - rewrite Hd, fexp_normal by lia. lia.
Qed.

(** A mantissa of exactly 53 bits at a normal exponent is returned as it is. *)
Lemma binary_round_aux_canonical (sx : bool) (m : positive) (e : Z) :
  Zpos (digits2_pos m) = 53%Z → (-1074 <= e <= 971)%Z →
  binary_round_aux prec emax sx (Zpos m) e loc_Exact = S754_finite sx m e.
Proof.
  intros Hd He. apply binary_round_aux_after_shr; [| done | done].
  apply (shr_fexp_canonical m e loc_Exact).
  rewrite Hd, fexp_normal by lia. lia.
Qed.

(** Rounding [c * 2^k] at exponent [-k] is exact when [c < 2^53]. *)
Lemma binary_round_exact (sx : bool) (c : positive) (k : nat) :
  (Zpos c < 2 ^ 53)%Z →
  binary_round prec emax sx (Nat.iter k xO c) (- Z.of_nat k)
  = S754_finite sx (canonical_mantissa_of c) (Zpos (digits2_pos c) - 53).
Proof.
  intros Hc. set (dc := Zpos (digits2_pos c)).
  assert (Hdc : (1 <= dc <= 53)%Z).
  { pose proof (digits2_pos_spec c) as [Hlo _]. fold dc in Hlo.
    split; [unfold dc; lia |].
    destruct (Z.le_gt_cases dc 53) as [? | Hgt]; [done |].
    assert (2 ^ 53 <= 2 ^ (dc - 1))%Z by (apply Z.pow_le_mono_r; lia). lia. }
  assert (Hcanon : Zpos (digits2_pos (canonical_mantissa_of c)) = 53%Z).
  { unfold canonical_mantissa_of. rewrite digits2_pos_iter_xO. fold dc. lia. }
  unfold binary_round.
  rewrite digits2_pos_iter_xO. fold dc.
  replace (dc + Z.of_nat k + - Z.of_nat k)%Z with dc by lia.
  rewrite fexp_normal by lia. unfold shl_align.
  destruct (dc - 53 - - Z.of_nat k)%Z as [|p|p] eqn:Hs.
  - (* no shift: the mantissa has exactly 53 bits *)
    assert (Hk : k = Z.to_nat (53 - dc)) by lia.
    replace (Nat.iter k xO c) with (canonical_mantissa_of c)
      by (unfold canonical_mantissa_of; fold dc; by rewrite <- Hk).
    replace (- Z.of_nat k)%Z with (dc - 53)%Z by lia.
    apply binary_round_aux_canonical; [done | lia].
  - (* too many bits: shift right, exactly *)
    apply binary_round_aux_after_shr; [| done | lia].
    unfold shr_fexp. simpl Zdigits2.
    rewrite digits2_pos_iter_xO. fold dc.
    replace (dc + Z.of_nat k + - Z.of_nat k)%Z with dc by lia.
    rewrite fexp_normal by lia. rewrite Hs. unfold shr.
    rewrite iter_pos_nat. simpl shr_record_of_loc.
    assert (Hk : k = (Pos.to_nat p + Z.to_nat (53 - dc))%nat) by lia.
    rewrite Hk, Nat.iter_add. rewrite shr_iter_exact.
    unfold canonical_mantissa_of. fold dc. f_equal. lia.
  - (* too few bits: shift left *)
    rewrite pos_iter_nat, <- Nat.iter_add.
    assert (Hk : (Pos.to_nat p + k)%nat = Z.to_nat (53 - dc)) by lia.
    rewrite Hk. fold (canonical_mantissa_of c).
    apply binary_round_aux_canonical; [done | lia].
Qed.

Lemma iter_xO_value (n : nat) (c : positive) :
  Zpos (Nat.iter n xO c) = (Zpos c * 2 ^ Z.of_nat n)%Z.
Proof.
  induction n as [|n IH]; [simpl; lia |].
  simpl Nat.iter. rewrite Pos2Z.inj_xO, IH, Nat2Z.inj_succ, Z.pow_succ_r by lia. lia.
Qed.

Lemma iter_xO_of_value (n : nat) (c p : positive) :
  Zpos p = (Zpos c * 2 ^ Z.of_nat n)%Z → p = Nat.iter n xO c.
Proof. intros Hp. rewrite <- iter_xO_value in Hp. by injection Hp. Qed.

Lemma digits_below_2_53 (c : positive) :
  (Zpos c < 2 ^ 53)%Z → (1 <= Zpos (digits2_pos c) <= 53)%Z.
Proof.
  intros Hc. pose proof (digits2_pos_spec c) as [Hlo _]. split; [lia |].
  destruct (Z.le_gt_cases (Zpos (digits2_pos c)) 53) as [? | Hgt]; [done |].
  assert (2 ^ 53 <= 2 ^ (Zpos (digits2_pos c) - 1))%Z by (apply Z.pow_le_mono_r; lia). lia.
Qed.

Lemma float_of_Z_pos (c : positive) :
  (Zpos c < 2 ^ 53)%Z → float_of_Z (Zpos c) = finite_of_pos false c.
Proof. intros Hc. apply (binary_round_exact false c 0 Hc). Qed.

Lemma float_of_Z_neg (c : positive) :
  (Zpos c < 2 ^ 53)%Z → float_of_Z (Zneg c) = finite_of_pos true c.
Proof. intros Hc. apply (binary_round_exact true c 0 Hc). Qed.

Lemma binary_normalize_exact (z : Z) (k : nat) :
  (Z.abs z < 2 ^ 53)%Z →
  binary_normalize prec emax (z * 2 ^ Z.of_nat k) (- Z.of_nat k) false = float_of_Z z.
Proof.
  intros Hz. assert (H2k : (0 < 2 ^ Z.of_nat k)%Z) by (apply Z.pow_pos_nonneg; lia).
  destruct z as [|c|c].
  - done.
  - rewrite float_of_Z_pos by lia.
    destruct (Zpos c * 2 ^ Z.of_nat k)%Z as [|p|p] eqn:Hp; [lia | | lia].
    symmetry in Hp. apply iter_xO_of_value in Hp as ->. simpl binary_normalize.
    apply binary_round_exact. lia.
  - rewrite float_of_Z_neg by lia.
    destruct (Zneg c * 2 ^ Z.of_nat k)%Z as [|p|p] eqn:Hp; [lia | lia |].
    assert (Hp' : Zpos p = (Zpos c * 2 ^ Z.of_nat k)%Z) by lia.
    apply iter_xO_of_value in Hp' as ->. simpl binary_normalize.
    apply binary_round_exact. lia.
Qed.

(** The aligned mantissa of the canonical form. *)
Lemma shl_align_canonical (c : positive) (ez : Z) :
  (Zpos c < 2 ^ 53)%Z → (ez <= Zpos (digits2_pos c) - 53)%Z →
  Zpos (fst (shl_align (canonical_mantissa_of c) (Zpos (digits2_pos c) - 53) ez))
  = (Zpos c * 2 ^ (- ez))%Z.
Proof.
  intros Hc Hez. pose proof (digits_below_2_53 c Hc) as Hd.
  unfold shl_align, canonical_mantissa_of.
  destruct (ez - (Zpos (digits2_pos c) - 53))%Z as [|p|p] eqn:Hs; [| lia |]; simpl fst.
  - rewrite iter_xO_value. f_equal. f_equal. lia.
  - rewrite pos_iter_nat, <- Nat.iter_add, iter_xO_value. f_equal. f_equal. lia.
Qed.

Lemma cond_Zopp_mul (s : bool) (a b : Z) : (cond_Zopp s a * b = cond_Zopp s (a * b))%Z.
Proof. destruct s; simpl; lia. Qed.

(** Adding two integers is exact while everything stays below 2^53. *)
Lemma f64_add_exact (a b : Z) :
  (Z.abs a < 2 ^ 53)%Z → (Z.abs b < 2 ^ 53)%Z → (Z.abs (a + b) < 2 ^ 53)%Z →
  f64_add (float_of_Z a) (float_of_Z b) = float_of_Z (a + b).
Proof.
  intros Ha Hb Hab.
  assert (Hfin : ∀ z, z ≠ 0%Z → (Z.abs z < 2 ^ 53)%Z →
            float_of_Z z = finite_of_pos (z <? 0)%Z (Z.to_pos (Z.abs z))).
  { intros [|c|c] Hz Hlt; [done | by apply float_of_Z_pos | by apply float_of_Z_neg]. }
  destruct (decide (a = 0%Z)) as [-> | Ha0].
  { rewrite Z.add_0_l. change (float_of_Z 0) with (S754_zero false).
    destruct (decide (b = 0%Z)) as [-> | Hb0]; [done |].
    rewrite (Hfin b Hb0 Hb). reflexivity. }
  destruct (decide (b = 0%Z)) as [-> | Hb0].
  { rewrite Z.add_0_r. change (float_of_Z 0) with (S754_zero false).
    rewrite (Hfin a Ha0 Ha). reflexivity. }
  rewrite (Hfin a Ha0 Ha), (Hfin b Hb0 Hb).
  set (ca := Z.to_pos (Z.abs a)). set (cb := Z.to_pos (Z.abs b)).
  assert (Hca : (Zpos ca < 2 ^ 53)%Z) by (unfold ca; lia).
  assert (Hcb : (Zpos cb < 2 ^ 53)%Z) by (unfold cb; lia).
  pose proof (digits_below_2_53 ca Hca) as Hda.
  pose proof (digits_below_2_53 cb Hcb) as Hdb.
  unfold f64_add, finite_of_pos, SFadd.
  set (ez := Z.min (Zpos (digits2_pos ca) - 53) (Zpos (digits2_pos cb) - 53)).
  rewrite !shl_align_canonical by (try done; unfold ez; lia).
  assert (Hez : (- ez = Z.of_nat (Z.to_nat (- ez)))%Z) by (unfold ez; lia).
  rewrite <- !cond_Zopp_mul, <- Z.mul_add_distr_r, Hez.
  replace (cond_Zopp (a <? 0)%Z (Zpos ca) + cond_Zopp (b <? 0)%Z (Zpos cb))%Z with (a + b)%Z.
  2:{ unfold ca, cb. destruct a, b; simpl; lia. }
  replace ez with (- Z.of_nat (Z.to_nat (- ez)))%Z at 2 by lia.
  by apply binary_normalize_exact.
Qed.


(** *** Rounding a mantissa of 53 or 54 bits *)

Lemma shr_m_of_loc (P : positive) (l : location) :
  shr_m (shr_record_of_loc (Zpos P) l) = Zpos P.
Proof. by destruct l as [|[]]. Qed.

Lemma shr_1_mantissa (P : positive) (r s : bool) :
  Zpos (digits2_pos P) = 54%Z →
  ∃ P', shr_m (shr_1 (Build_shr_record (Zpos P) r s)) = Zpos P'
        ∧ Zpos (digits2_pos P') = 53%Z.
Proof.
  intros Hd. destruct P as [P'|P'|]; [| | done];
    (exists P'; split; [done | simpl in Hd; lia]).
Qed.

Lemma shr_fexp_step (P : positive) (l : location) :
  Zpos (digits2_pos P) = 53%Z ∨ Zpos (digits2_pos P) = 54%Z →
  ∃ rec P1 n1,
    shr_m rec = Zpos P1 ∧ Zpos (digits2_pos P1) = 53%Z ∧ (0 <= n1)%Z ∧
    ∀ e, (-1074 <= e)%Z → shr_fexp prec emax (Zpos P) e l = (rec, (e + n1)%Z).
Proof.
  intros [Hd | Hd].
  - exists (shr_record_of_loc (Zpos P) l), P, 0%Z.
    split; [apply shr_m_of_loc |]. split; [done |]. split; [done |].
    intros e He. rewrite Z.add_0_r. apply shr_fexp_canonical.
    rewrite Hd, fexp_normal by lia. lia.
  - destruct (shr_record_of_loc (Zpos P) l) as [m r s] eqn:Hrec.
    assert (Hm : m = Zpos P).
    { change m with (shr_m (Build_shr_record m r s)). rewrite <- Hrec. apply shr_m_of_loc. }
    subst m. destruct (shr_1_mantissa P r s Hd) as (P1 & HP1 & Hd1).
    exists (shr_1 (Build_shr_record (Zpos P) r s)), P1, 1%Z.
    split; [done |]. split; [done |]. split; [done |].
    intros e He. unfold shr_fexp. simpl Zdigits2. rewrite Hd, fexp_normal by lia.
    rewrite Hrec. replace (54 + e - 53 - e)%Z with 1%Z by lia. reflexivity.
Qed.

Lemma round_nearest_even_normal (P : positive) (l : location) :
  Zpos (digits2_pos P) = 53%Z →
  ∃ P2, round_nearest_even (Zpos P) l = Zpos P2
        ∧ (Zpos (digits2_pos P2) = 53%Z ∨ Zpos (digits2_pos P2) = 54%Z).
Proof.
  intros Hd. pose proof (digits2_pos_spec P) as HP. rewrite Hd in HP.
  assert (Hsucc : Zpos (digits2_pos (P + 1)) = 53%Z ∨ Zpos (digits2_pos (P + 1)) = 54%Z).
  { destruct (decide (Zpos P + 1 < 2 ^ 53)%Z) as [Hlt | Hge].
    - left. apply digits2_pos_unique; lia.
    - right. apply digits2_pos_unique; lia. }
  unfold round_nearest_even. destruct l as [|[]].
  - exists P. auto.
  - destruct (Z.even (Zpos P)); [exists P; auto |].
    exists (P + 1)%positive. split; [done | done].
  - exists P. auto.
  - exists (P + 1)%positive. split; [done | done].
Qed.

(** A mantissa of 53 or 54 bits rounds to a 53-bit one; the exponent moves by
    an amount that does not depend on the exponent itself. *)
Lemma binary_round_aux_normal (sx : bool) (P : positive) (l : location) :
  Zpos (digits2_pos P) = 53%Z ∨ Zpos (digits2_pos P) = 54%Z →
  ∃ m n, Zpos (digits2_pos m) = 53%Z ∧ (0 <= n)%Z ∧
    ∀ e, (-1074 <= e)%Z →
      binary_round_aux prec emax sx (Zpos P) e l = rounded sx m (e + n).
Proof.
  intros Hd.
  destruct (shr_fexp_step P l Hd) as (rec1 & P1 & n1 & Hm1 & Hd1 & Hn1 & Hshr1).
  destruct (round_nearest_even_normal P1 (loc_of_shr_record rec1) Hd1)
    as (P2 & Hround & Hd2).
  destruct (shr_fexp_step P2 loc_Exact Hd2) as (rec2 & m & n2 & Hm2 & Hdm & Hn2 & Hshr2).
  exists m, (n1 + n2)%Z. split; [done |]. split; [lia |].
  intros e He. unfold binary_round_aux.
  rewrite (Hshr1 e He), Hm1, Hround, (Hshr2 (e + n1)%Z) by lia.
  rewrite Hm2. unfold rounded, emax, prec.
  by replace (e + n1 + n2)%Z with (e + (n1 + n2))%Z by lia.
Qed.

(** *** Doubling *)


(** *** Division of a normal number *)

Lemma SFdiv_core_binary_normal (md mx : positive) (e1 ex : Z) :
  Zpos (digits2_pos md) = 53%Z →
  (-1021 <= 53 + e1 - (Zpos (digits2_pos mx) + ex))%Z →
  SFdiv_core_binary prec emax (Zpos md) e1 (Zpos mx) ex
  = (let '(q, r) := Z.div_eucl (Zpos md * 2 ^ Zpos (digits2_pos mx)) (Zpos mx) in
     (q, (e1 - ex - Zpos (digits2_pos mx))%Z, new_location (Zpos mx) r)).
Proof.
  intros Hd Hk. unfold SFdiv_core_binary. simpl Zdigits2. rewrite Hd.
  rewrite fexp_normal by lia.
  replace (Z.min (53 + e1 - (Zpos (digits2_pos mx) + ex) - 53) (e1 - ex))%Z
    with (e1 - ex - Zpos (digits2_pos mx))%Z by lia.
  replace (e1 - ex - (e1 - ex - Zpos (digits2_pos mx)))%Z
    with (Zpos (digits2_pos mx)) by lia.
  cbv iota beta. by rewrite Z.shiftl_mul_pow2 by lia.
Qed.

Lemma quotient_bounds (md mx : positive) :
  Zpos (digits2_pos md) = 53%Z →
  (2 ^ 52 <= (Zpos md * 2 ^ Zpos (digits2_pos mx)) / Zpos mx < 2 ^ 54)%Z.
Proof.
  intros Hd. pose proof (digits2_pos_spec md) as Hmd. rewrite Hd in Hmd.
  pose proof (digits2_pos_spec mx) as Hmx.
  set (dx := Zpos (digits2_pos mx)) in *.
  assert (Hdx : (2 ^ dx = 2 * 2 ^ (dx - 1))%Z).
  { rewrite <- Z.pow_succ_r by (unfold dx; lia). f_equal. lia. }
  assert (0 < 2 ^ (dx - 1))%Z by (apply Z.pow_pos_nonneg; unfold dx; lia).
  split.
  - apply Z.div_le_lower_bound; [lia |]. nia.
  - apply Z.div_lt_upper_bound; [lia |]. nia.
Qed.

(** Dividing a normal number: the mantissa of the quotient does not depend on
    the exponent of the dividend. *)
Lemma f64_div_normal (sd sx : bool) (md mx : positive) (ex : Z) :
  Zpos (digits2_pos md) = 53%Z →
  ∃ m n, Zpos (digits2_pos m) = 53%Z ∧
    ∀ e1, (-1021 <= 53 + e1 - (Zpos (digits2_pos mx) + ex))%Z →
      f64_div (S754_finite sd md e1) (S754_finite sx mx ex)
      = rounded (xorb sd sx) m (e1 + n) ∧ (-1074 <= e1 + n)%Z.
Proof.
  intros Hd. pose proof (quotient_bounds md mx Hd) as Hq.
  pose proof (Z.div_eucl_eq (Zpos md * 2 ^ Zpos (digits2_pos mx)) (Zpos mx)) as _.
  unfold Z.div in Hq.
  destruct (Z.div_eucl (Zpos md * 2 ^ Zpos (digits2_pos mx)) (Zpos mx)) as [q r] eqn:Hqr.
  simpl fst in Hq. destruct q as [|Pq|Pq]; [lia | | lia].
  assert (HdPq : Zpos (digits2_pos Pq) = 53%Z ∨ Zpos (digits2_pos Pq) = 54%Z).
  { destruct (decide (Zpos Pq < 2 ^ 53)%Z).
    - left. apply digits2_pos_unique; lia.
    - right. apply digits2_pos_unique; lia. }
  destruct (binary_round_aux_normal (xorb sd sx) Pq
              (new_location (Zpos mx) r) HdPq) as (m & n & Hdm & Hn & Hround).
  exists m, (n - ex - Zpos (digits2_pos mx))%Z. split; [done |].
  intros e1 Hk. split; [| lia]. unfold f64_div, SFdiv. cbv iota beta.
  rewrite SFdiv_core_binary_normal by done. rewrite Hqr. cbv iota beta.
  rewrite Hround by lia. f_equal. lia.
Qed.

(** *** The rational value of a float *)

Lemma finite_of_pos_value (c : positive) :
  (Zpos c < 2 ^ 53)%Z →
  (inject_Z (Zpos (canonical_mantissa_of c)) * 2 ^ (Zpos (digits2_pos c) - 53)
   == inject_Z (Zpos c))%Q.
Proof.
  intros Hc. pose proof (digits_below_2_53 c Hc) as Hd.
  unfold canonical_mantissa_of. rewrite iter_xO_value, inject_Z_mult.
  set (j := Z.to_nat (53 - Zpos (digits2_pos c))).
  replace (Zpos (digits2_pos c) - 53)%Z with (- Z.of_nat j)%Z by (unfold j; lia).
  rewrite Zpower_Qpower by lia. rewrite Qpower_opp.
  change (inject_Z 2) with 2%Q.
  assert (Hnz : ~ (2 ^ Z.of_nat j == 0)%Q).
  { apply Qpower_not_0. discriminate. }
  field. exact Hnz.
Qed.

Lemma float_of_Z_denotes (z : Z) :
  (Z.abs z < 2 ^ 53)%Z → denotes (float_of_Z z) (inject_Z z).
Proof.
  intros Hz. unfold denotes. destruct z as [|c|c].
  - reflexivity.
  - rewrite float_of_Z_pos by lia. apply finite_of_pos_value. lia.
  - rewrite float_of_Z_neg by lia. simpl float_value. cbv iota.
    rewrite finite_of_pos_value by lia. reflexivity.
Qed.

(** *** Integers as floats *)

Lemma float_of_Z_small (z : Z) :
  z ≠ 0 → Z.abs z < 2 ^ 53 →
  float_of_Z z = finite_of_pos (z <? 0) (Z.to_pos (Z.abs z)).
Proof.
  destruct z as [|c|c]; intros Hz Hlt;
    [done | by apply float_of_Z_pos | by apply float_of_Z_neg].
Qed.

Lemma canonical_mantissa_digits (c : positive) :
  Zpos c < 2 ^ 53 → Zpos (digits2_pos (canonical_mantissa_of c)) = 53.
Proof.
  intros Hc. pose proof (digits_below_2_53 c Hc).
  unfold canonical_mantissa_of. rewrite digits2_pos_iter_xO. lia.
Qed.

Lemma float_of_Z_normal (z : Z) :
  z ≠ 0 → Z.abs z < 2 ^ 53 → normal (float_of_Z z).
Proof.
  intros Hz Hlt. rewrite float_of_Z_small by done. unfold finite_of_pos, normal.
  assert (Hc : Zpos (Z.to_pos (Z.abs z)) < 2 ^ 53) by lia.
  pose proof (digits_below_2_53 _ Hc). split; [by apply canonical_mantissa_digits | lia].
Qed.

Lemma fits_float64_small (z : Z) : Z.abs z < 2 ^ 53 → fits_float64 z.
Proof.
  intros Hz. unfold fits_float64. destruct (decide (z = 0)) as [-> | Hz0]; [done |].
  by rewrite float_of_Z_small.
Qed.

Lemma as_float_Int (z : Z) : fits_float64 z → as_float (Int z) = Ok (float_of_Z z).
Proof. unfold fits_float64, as_float. by intros ->. Qed.

Lemma as_float_Int_overflow (z : Z) :
  ¬ fits_float64 z → as_float (Int z) = Raise OverflowError.
Proof.
  unfold fits_float64, as_float. by destruct (is_infinity (float_of_Z z)).
Qed.

Lemma as_float_fails_only (v : number) : fails_only OverflowError (as_float v).
Proof.
  destruct v as [z | x]; [| done]. unfold as_float.
  by destruct (is_infinity (float_of_Z z)).
Qed.

Lemma f64_add_pzero_l (z : Z) :
  Z.abs z < 2 ^ 53 → f64_add pzero (float_of_Z z) = float_of_Z z.
Proof.
  intros Hz. change pzero with (float_of_Z 0).
  rewrite f64_add_exact by (try done; simpl; lia). by rewrite Z.add_0_l.
Qed.

(** ** Loops *)

Section Loops.
Context {T : Type}.
Implicit Types (body : T → nat → result T) (P : nat → T → Prop).

Lemma for_each_seq_inv body P a len s :
  P a s →
  (∀ i t, (a ≤ i < a + len)%nat → P i t →
     ∃ t', body t i = Ok t' ∧ P (S i) t') →
  ∃ t', for_each body (seq a len) s = Ok t' ∧ P (a + len)%nat t'.
Proof.
  revert a s. induction len as [|len IH]; intros a s Ha Hstep; simpl.
  - exists s. by rewrite Nat.add_0_r.
  - destruct (Hstep a s) as (t & -> & Ht); [lia | done |]. simpl.
    destruct (IH (S a) t) as (t' & Hrun & Ht'); [done | |].
    + intros i u Hi. apply Hstep. lia.
    + exists t'. split; [done |]. by replace (a + S len)%nat with (S a + len)%nat by lia.
Qed.

(** A [for i in range(n)] loop whose body keeps an invariant indexed by
    the number of iterations done runs to its end and establishes it. *)
Lemma for_each_range_inv body P n s :
  P 0%nat s →
  (∀ i t, (i < n)%nat → P i t → ∃ t', body t i = Ok t' ∧ P (S i) t') →
  ∃ t', for_each body (range n) s = Ok t' ∧ P n t'.
Proof.
  intros H0 Hstep.
  destruct (for_each_seq_inv body P 0 n s) as (t & ? & ?); eauto.
  intros i t ?. apply Hstep. lia.
Qed.
End Loops.

Lemma fails_only_bind {A B : Type} (e : exn) (m : result A) (k : A → result B) :
  fails_only e m → (∀ a, fails_only e (k a)) → fails_only e (bind m k).
Proof. destruct m; simpl; auto. Qed.

Lemma for_each_fails_only {A T : Type} (e : exn) (body : T → A → result T)
    (xs : list A) :
  (∀ t x, fails_only e (body t x)) → ∀ t, fails_only e (for_each body xs t).
Proof.
  intros Hbody. induction xs as [|x xs IH]; intros t; simpl; [done |].
  apply fails_only_bind; auto.
Qed.

Lemma fails_only_eq {A : Type} (e e' : exn) (r : result A) :
  fails_only e r → r = Raise e' → e' = e.
Proof. intros Hr ->. exact Hr. Qed.

Lemma fails_among_bind {A B : Type} (P : exn → Prop) (m : result A)
    (k : A → result B) :
  fails_among P m → (∀ a, fails_among P (k a)) → fails_among P (bind m k).
Proof. destruct m; simpl; auto. Qed.

Lemma for_each_fails_among {A T : Type} (P : exn → Prop) (body : T → A → result T)
    (xs : list A) :
  (∀ t x, fails_among P (body t x)) → ∀ t, fails_among P (for_each body xs t).
Proof.
  intros Hbody. induction xs as [|x xs IH]; intros t; simpl; [done |].
  apply fails_among_bind; auto.
Qed.

Lemma fails_only_among {A : Type} (P : exn → Prop) (e : exn) (r : result A) :
  P e → fails_only e r → fails_among P r.
Proof. destruct r; simpl; [done | by intros ? ->]. Qed.

Lemma fails_among_mono {A : Type} (P Q : exn → Prop) (r : result A) :
  (∀ e, P e → Q e) → fails_among P r → fails_among Q r.
Proof. destruct r; simpl; auto. Qed.

Lemma fails_among_eq {A : Type} (P : exn → Prop) (e : exn) (r : result A) :
  fails_among P r → r = Raise e → P e.
Proof. intros Hr ->. exact Hr. Qed.

(** A loop raises when one of its iterations raises from every state. *)
Lemma for_each_raises {A T : Type} (body : T → A → result T) (xs : list A) (x : A) :
  x ∈ xs → (∀ t, raises (body t x)) → ∀ t, raises (for_each body xs t).
Proof.
  intros Hin Hx. induction xs as [|y ys IH]; intros t.
  - by apply elem_of_nil in Hin.
  - simpl. destruct (body t y) as [t' | e] eqn:Hy; simpl; [| done].
    apply elem_of_cons in Hin as [<- | Hin]; [| by apply IH].
    specialize (Hx t). by rewrite Hy in Hx.
Qed.

Lemma raises_fails_only {A : Type} (e : exn) (r : result A) :
  raises r → fails_only e r → r = Raise e.
Proof. destruct r; simpl; [done | by intros _ ->]. Qed.

Lemma raises_bind {A B : Type} (m : result A) (k : A → result B) :
  (∀ a, raises (k a)) → raises (bind m k).
Proof. destruct m; simpl; auto. Qed.

Lemma raises_bind_l {A B : Type} (m : result A) (k : A → result B) :
  raises m → raises (bind m k).
Proof. by destruct m. Qed.

Lemma getitem_fails_only {A : Type} (l : list A) (i : nat) :
  fails_only IndexError (getitem l i).
Proof. unfold getitem. by destruct (l !! i). Qed.

Lemma iadd_fails_among (m : matrix) (i j : nat) (v : number) :
  fails_among index_or_overflow (iadd m i j v).
Proof.
  unfold iadd.
  apply fails_among_bind.
  { apply (fails_only_among _ IndexError); [by left | apply getitem_fails_only]. }
  intros row. apply fails_among_bind.
  { apply (fails_only_among _ IndexError); [by left | apply getitem_fails_only]. }
  intros x. apply fails_among_bind; [| done].
  apply (fails_only_among _ OverflowError); [by right | apply as_float_fails_only].
Qed.

Lemma iadd_overflow (m : matrix) (i j : nat) (z : Z) :
  ¬ fits_float64 z → raises (iadd m i j (Int z)).
Proof.
  intros Hz. unfold iadd. apply raises_bind. intros row.
  apply raises_bind. intros x. by rewrite as_float_Int_overflow.
Qed.

(** ** Matrices as functions of their two indices *)

Lemma represents_ext n f g m :
  (∀ i j, (i < n)%nat → (j < n)%nat → f i j = g i j) →
  represents n f m → represents n g m.
Proof.
  intros Hfg [Hsq Hm]. split; [done |]. intros i j Hi Hj.
  by rewrite (Hm i j Hi Hj), Hfg.
Qed.

Lemma replicate_represents n :
  represents n (λ _ _, pzero) (replicate n (replicate n pzero)).
Proof.
  split; [split |].
  - by rewrite length_replicate.
  - apply Forall_replicate. by rewrite length_replicate.
  - intros i j Hi Hj. unfold entry.
    rewrite lookup_replicate_2 by done. by rewrite lookup_replicate_2.
Qed.

Lemma zeros_ok {M : Machine} (rows cols : nat) :
  np_zeros_error rows cols = None →
  zeros rows cols = Ok (replicate rows (replicate cols pzero)).
Proof. unfold zeros. by intros ->. Qed.

Lemma zeros_error {M : Machine} (rows cols : nat) (e : exn) :
  np_zeros_error rows cols = Some e → zeros rows cols = Raise e.
Proof. unfold zeros. by intros ->. Qed.

Lemma zeros_ok_inv {M : Machine} (rows cols : nat) (m : matrix) :
  zeros rows cols = Ok m →
  np_zeros_error rows cols = None ∧ m = replicate rows (replicate cols pzero).
Proof.
  unfold zeros. destruct (np_zeros_error rows cols); [done |]. by intros [= <-].
Qed.

Lemma square_row n m i :
  square n m → (i < n)%nat → ∃ row, m !! i = Some row ∧ length row = n.
Proof.
  intros [Hlen Hrows] Hi.
  destruct (lookup_lt_is_Some_2 m i) as [row Hrow]; [lia |].
  exists row. split; [done |].
  by apply (Forall_lookup_1 (λ row, length row = n) m i row).
Qed.

(** [m[i][j] += v] on an [n × n] matrix, for indices in range and a
    value that converts to the float [y]. *)
Lemma iadd_represents n f m i j v y :
  represents n f m → (i < n)%nat → (j < n)%nat → as_float v = Ok y →
  ∃ m', iadd m i j v = Ok m' ∧
        represents n
          (λ a b, if bool_decide (a = i ∧ b = j) then f64_add (f a b) y else f a b) m'.
Proof.
  intros [Hsq Hm] Hi Hj Hv.
  destruct (square_row n m i Hsq Hi) as (row & Hrow & Hlen).
  destruct (lookup_lt_is_Some_2 row j) as [x Hx]; [lia |].
  unfold iadd, getitem. rewrite Hrow. cbn [bind]. rewrite Hx. cbn [bind].
  rewrite Hv. cbn [bind].
  eexists. split; [done |]. destruct Hsq as [Hlm Hrows]. split; [split |].
  - by rewrite length_insert.
  - apply Forall_insert; [done |]. by rewrite length_insert.
  - intros a b Ha Hb. unfold entry.
    destruct (decide (a = i)) as [-> | Hai].
    + rewrite list_lookup_insert_eq by lia.
      destruct (decide (b = j)) as [-> | Hbj].
      * rewrite list_lookup_insert_eq by lia.
        rewrite bool_decide_eq_true_2 by done.
        pose proof (Hm i j Hi Hj) as Hy. unfold entry in Hy.
        rewrite Hrow, Hx in Hy. by injection Hy as ->.
      * rewrite list_lookup_insert_ne by done.
        rewrite bool_decide_eq_false_2 by (intros [_ ?]; done).
        pose proof (Hm i b Hi Hb) as Hy. unfold entry in Hy.
        by rewrite Hrow in Hy.
    + rewrite list_lookup_insert_ne by done.
      rewrite bool_decide_eq_false_2 by (intros [? _]; done).
      apply (Hm a b Ha Hb).
Qed.

Lemma getitem_nth {A : Type} (l : list A) (i : nat) (d : A) :
  (i < length l)%nat → getitem l i = Ok (nth i l d).
Proof.
  intros Hi. unfold getitem. rewrite nth_lookup.
  by destruct (lookup_lt_is_Some_2 l i Hi) as [x ->].
Qed.

Lemma lt_pow2 (n i : nat) : (i < n)%nat → (i < 2 ^ n)%nat.
Proof. intros Hi. pose proof (Nat.pow_gt_lin_r 2 n). lia. Qed.

Lemma for_each_ext {A T : Type} (body1 body2 : T → A → result T) (xs : list A) :
  (∀ x t, x ∈ xs → body1 t x = body2 t x) →
  ∀ t, for_each body1 xs t = for_each body2 xs t.
Proof.
  induction xs as [|x xs IH]; intros Hbody t; simpl; [done |].
  rewrite Hbody by (by left). destruct (body2 t x) as [t' | e]; simpl; [| done].
  apply IH. intros y u Hy. apply Hbody. by right.
Qed.

Lemma for_each_app {A T : Type} (body : T → A → result T) (xs ys : list A) (t : T) :
  for_each body (xs ++ ys) t
  = let* t' := for_each body xs t in for_each body ys t'.
Proof.
  revert t. induction xs as [|x xs IH]; intros t; simpl; [done |].
  destruct (body t x) as [t' | e]; simpl; [apply IH | done].
Qed.

(** Iterations that leave the state alone leave it alone together. *)
Lemma for_each_skip {A T : Type} (body : T → A → result T) (xs : list A) (t : T) :
  (∀ x, x ∈ xs → body t x = Ok t) → for_each body xs t = Ok t.
Proof.
  induction xs as [|x xs IH]; intros Hbody; simpl; [done |].
  rewrite Hbody by (by left). simpl. apply IH. intros y Hy. apply Hbody. by right.
Qed.

Lemma for_each_preserves {A T : Type} (P : T → Prop) (body : T → A → result T)
    (xs : list A) :
  (∀ t x t', P t → body t x = Ok t' → P t') →
  ∀ t t', P t → for_each body xs t = Ok t' → P t'.
Proof.
  intros Hbody. induction xs as [|x xs IH]; intros t t' Ht Hrun; simpl in Hrun.
  - by injection Hrun as <-.
  - destruct (body t x) as [u | e] eqn:Hx; [| done]. simpl in Hrun.
    eapply IH; [| exact Hrun]. by eapply Hbody.
Qed.

(** The sample machine refuses the arrays of sixteen intersections and
    more. *)
Lemma workstation_allocates (rows cols : nat) :
  (N.of_nat rows * N.of_nat cols ≤ 2 ^ 30)%N →
  np_zeros_error (Machine := workstation) rows cols = None.
Proof.
  intros Hsize. cbn [np_zeros_error workstation].
  by destruct (N.leb_spec (N.of_nat rows * N.of_nat cols) (2 ^ 30)); [| lia].
Qed.

(** ** signal-solver.py: the cost matrix *)

Module SignalFacts.
Import Signal.

Lemma as_float_penalty : as_float (Int emergency_penalty) = Ok (float_of_Z 100).
Proof. reflexivity. Qed.

(** The whole matrix, as long as every product converts to a float: the
    stored sums on the first [n] diagonal positions, zero everywhere
    else. *)
Lemma create_cost_hamiltonian_represents {M : Machine} tf st ef :
  np_zeros_error (2 ^ length tf) (2 ^ length tf) = None →
  (length tf ≤ length st)%nat → (length tf ≤ length ef)%nat →
  (∀ i, (i < length tf)%nat → fits_float64 (nth i st 0 * nth i tf 0)) →
  ∃ m, create_cost_hamiltonian tf st ef = Ok m ∧
       represents (2 ^ length tf)
         (λ a b, if bool_decide (a = b ∧ (a < length tf)%nat)
                 then stored_cost tf st ef a else pzero) m.
Proof.
  intros Halloc Hst Hef Hfits. unfold create_cost_hamiltonian.
  rewrite (zeros_ok _ _ Halloc). cbn [bind].
  set (n := length tf) in *. set (N := (2 ^ n)%nat).
  pose (P := λ (k : nat) (m : matrix),
    represents N
      (λ a b, if bool_decide (a = b ∧ (a < k)%nat)
              then stored_cost tf st ef a else pzero) m).
  apply (for_each_range_inv (cost_step tf st ef) P); unfold P.
  - eapply represents_ext; [| apply replicate_represents].
    intros a b _ _. simpl. by rewrite bool_decide_eq_false_2 by lia.
  - intros i m Hi Hm. unfold cost_step.
    rewrite (getitem_nth st i 0) by lia. cbn [bind].
    rewrite (getitem_nth tf i 0) by (fold n; lia). cbn [bind].
    pose proof (lt_pow2 n i Hi) as HiN. fold N in HiN.
    destruct (iadd_represents N _ m i i (Int (nth i st 0 * nth i tf 0))
                (float_of_Z (nth i st 0 * nth i tf 0)) Hm HiN HiN)
      as (m1 & -> & Hm1); [by apply as_float_Int, Hfits |]. cbn [bind].
    rewrite (getitem_nth ef i false) by lia. cbn [bind].
    destruct (nth i ef false) eqn:Hflag.
    + destruct (iadd_represents N _ m1 i i (Int emergency_penalty) (float_of_Z 100)
                  Hm1 HiN HiN as_float_penalty) as (m2 & -> & Hm2).
      exists m2. split; [done |]. eapply represents_ext; [| exact Hm2].
      intros a b _ _. simpl. unfold stored_cost, emergency_penalty.
      repeat case_bool_decide; try (exfalso; lia); try reflexivity.
      destruct_and!. subst. by rewrite Hflag.
    + exists m1. split; [done |]. eapply represents_ext; [| exact Hm1].
      intros a b _ _. simpl. unfold stored_cost.
      repeat case_bool_decide; try (exfalso; lia); try reflexivity.
      destruct_and!. subst. by rewrite Hflag.
Qed.

(** Below 2^53 the stored sum is the integer sum. *)
Lemma stored_cost_exact tf st ef (i : nat) :
  Z.abs (nth i st 0 * nth i tf 0) + 100 < 2 ^ 53 →
  stored_cost tf st ef i = float_of_Z (waiting_cost tf st ef i).
Proof.
  intros Hp. unfold stored_cost, waiting_cost, emergency_penalty.
  rewrite f64_add_pzero_l by lia. destruct (nth i ef false).
  - rewrite f64_add_exact; [done | lia | simpl; lia | lia].
  - by rewrite Z.add_0_r.
Qed.

(** C1, as stated, fails. The matrix holds floats. A product above 2^53
    is rounded when it is stored: for [signal_timings = [2^53 + 1]] and
    [traffic_flows = [1]] entry [(0, 0)] is 2^53. At 2^60 the penalty of
    100 is lost in the addition. A product beyond the largest float
    ([10^400]) makes the function raise [OverflowError]: no machine
    returns a matrix then. *)
Lemma create_cost_hamiltonian_rounds_and_overflows :
  (∃ m, create_cost_hamiltonian (M := workstation) [1] [2 ^ 53 + 1] [false] = Ok m ∧
        entry m 0 0 = Some (float_of_Z (2 ^ 53)) ∧
        denotes (float_of_Z (2 ^ 53)) (inject_Z (2 ^ 53)) ∧
        ¬ denotes (float_of_Z (2 ^ 53)) (inject_Z ((2 ^ 53 + 1) * 1))) ∧
  (∃ m, create_cost_hamiltonian (M := workstation) [1] [2 ^ 60] [true] = Ok m ∧
        entry m 0 0 = Some (float_of_Z (2 ^ 60)) ∧
        denotes (float_of_Z (2 ^ 60)) (inject_Z (2 ^ 60)) ∧
        ¬ denotes (float_of_Z (2 ^ 60)) (inject_Z (2 ^ 60 * 1) + 100)) ∧
  create_cost_hamiltonian (M := workstation) [1] [10 ^ 400] [false]
  = Raise OverflowError ∧
  ¬ ∃ (M : Machine) m, create_cost_hamiltonian (M := M) [1] [10 ^ 400] [false] = Ok m.
Proof.
  split; [| split; [| split]].
  - eexists. split; [vm_compute; reflexivity |]. split; [reflexivity |].
    split; [reflexivity |]. intros Hd. vm_compute in Hd. discriminate.
  - eexists. split; [vm_compute; reflexivity |]. split; [reflexivity |].
    split; [reflexivity |]. intros Hd. vm_compute in Hd. discriminate.
  - vm_compute. reflexivity.
  - intros (M & m & Hrun). unfold create_cost_hamiltonian in Hrun.
    destruct (zeros (2 ^ length [1]) (2 ^ length [1])) as [m0 | e]; [| done].
    cbn [bind] in Hrun.
    assert (Hraise : raises (for_each (cost_step [1] [10 ^ 400] [false])
                               (range (length [1])) m0)).
    { apply (for_each_raises _ _ 0%nat); [by left |]. intros t.
      unfold cost_step. change (getitem [10 ^ 400] 0) with (Ok (A := Z) (10 ^ 400)).
      cbn [bind]. change (getitem [1] 0) with (Ok (A := Z) 1). cbn [bind].
      apply raises_bind_l. apply iadd_overflow. by vm_compute. }
    by rewrite Hrun in Hraise.
Qed.

(** C1, amended. On a machine that allocates the 2^n × 2^n array, for
    vectors of one length [n] whose products
    [signal_timings[i] * traffic_flows[i]] stay below [2^53 - 100] in
    magnitude, [create_cost_hamiltonian] returns a matrix, and for every
    [i] in [0, n) its diagonal entry [(i, i)] is the float of
    [signal_timings[i] * traffic_flows[i]], plus 100 exactly when
    [emergency_flags[i]] is true; that float has exactly this value. *)
Theorem create_cost_hamiltonian_diagonal {M : Machine}
    (traffic_flows signal_timings : list Z) (emergency_flags : list bool) :
  np_zeros_error (2 ^ length traffic_flows) (2 ^ length traffic_flows) = None →
  length signal_timings = length traffic_flows →
  length emergency_flags = length traffic_flows →
  (∀ (i : nat) (s f : Z),
     signal_timings !! i = Some s → traffic_flows !! i = Some f →
     Z.abs (s * f) + 100 < 2 ^ 53) →
  ∃ m, create_cost_hamiltonian traffic_flows signal_timings emergency_flags = Ok m ∧
    ∀ (i : nat) (s f : Z) (flag : bool),
      signal_timings !! i = Some s →
      traffic_flows !! i = Some f →
      emergency_flags !! i = Some flag →
      ∃ x, entry m i i = Some x ∧
           x = float_of_Z (s * f + (if flag then 100 else 0)) ∧
           denotes x (inject_Z (s * f) + (if flag then 100 else 0))%Q.
Proof.
  intros Halloc Hst Hef Hsmall.
  assert (Hnth : ∀ i, (i < length traffic_flows)%nat →
            Z.abs (nth i signal_timings 0 * nth i traffic_flows 0) + 100 < 2 ^ 53).
  { intros i Hi.
    destruct (lookup_lt_is_Some_2 signal_timings i) as [s Hs]; [lia |].
    destruct (lookup_lt_is_Some_2 traffic_flows i) as [f Hf]; [lia |].
    rewrite !nth_lookup, Hs, Hf. simpl. by apply (Hsmall i). }
  destruct (create_cost_hamiltonian_represents traffic_flows signal_timings
              emergency_flags Halloc) as (m & Hrun & [_ Hm]); [lia | lia | |].
  { intros i Hi. apply fits_float64_small. specialize (Hnth i Hi). lia. }
  exists m. split; [done |]. intros i s f flag Hs Hf Hflag.
  pose proof (lookup_lt_Some _ _ _ Hf) as Hi.
  rewrite (Hm i i (lt_pow2 _ _ Hi) (lt_pow2 _ _ Hi)).
  rewrite bool_decide_eq_true_2 by done.
  rewrite stored_cost_exact by by apply Hnth.
  unfold waiting_cost. rewrite !nth_lookup, Hs, Hf, Hflag. simpl.
  specialize (Hsmall i s f Hs Hf).
  eexists. split; [done |]. split; [done |].
  assert (Hq : (inject_Z (s * f) + (if flag then 100 else 0)
                == inject_Z (s * f + (if flag then 100 else 0)))%Q).
  { rewrite inject_Z_plus. by destruct flag. }
  unfold denotes.
  pose proof (float_of_Z_denotes (s * f + (if flag then 100 else 0))) as Hden.
  unfold denotes in Hden.
  destruct (float_value (float_of_Z (s * f + (if flag then 100 else 0)))) as [v |].
  - rewrite Hq. apply Hden. destruct flag; lia.
  - apply Hden. destruct flag; lia.
Qed.

Lemma create_cost_hamiltonian_diagonal_witness :
  ∃ m, create_cost_hamiltonian (M := workstation) [50; 40; 10] [30; 60; 20]
         [false; true; false] = Ok m ∧
    ∀ (i : nat) (s f : Z) (flag : bool),
      [30; 60; 20] !! i = Some s →
      [50; 40; 10] !! i = Some f →
      [false; true; false] !! i = Some flag →
      ∃ x, entry m i i = Some x ∧
           x = float_of_Z (s * f + (if flag then 100 else 0)) ∧
           denotes x (inject_Z (s * f) + (if flag then 100 else 0))%Q.
Proof.
  apply (create_cost_hamiltonian_diagonal (M := workstation) [50; 40; 10]
           [30; 60; 20] [false; true; false]); [reflexivity .. |].
  intros [|[|[|i]]] s f Hs Hf; simplify_eq/=; lia.
Defined.

(** C5, as stated, fails: on the sample data the second diagonal entry is
    60 * 40 + 100 = 2500, not 2500 + 100, whether "the diagonal" is read
    as the first three entries or as all eight. *)
Lemma sample_cost_diagonal_not_2600 :
  ∃ m, sample_cost (M := workstation) = Ok m ∧
       diagonal m !! 1%nat = Some (float_of_Z 2500) ∧
       denotes (float_of_Z 2500) 2500 ∧
       ¬ Forall2 denotes (take 3 (diagonal m)) [1500; 2500 + 100; 200]%Q ∧
       ¬ Forall2 denotes (diagonal m) [1500; 2500 + 100; 200]%Q.
Proof.
  eexists. split; [vm_compute; reflexivity |]. split; [reflexivity |].
  split; [reflexivity |]. split; intros Hd.
  - apply Forall2_cons_1 in Hd as [_ Hd]. apply Forall2_cons_1 in Hd as [Hd _].
    vm_compute in Hd. discriminate.
  - apply Forall2_length in Hd. vm_compute in Hd. discriminate.
Qed.

(** C5, amended. On the sample data (the 8 × 8 array allocated) the
    matrix is 8 × 8; its first three diagonal entries are 1500,
    2400 + 100 and 200, and the other five are zero. *)
Theorem sample_cost_diagonal {M : Machine} :
  np_zeros_error 8 8 = None →
  ∃ m, sample_cost = Ok m ∧ square 8 m ∧
       Forall2 denotes (diagonal m) [1500; 2400 + 100; 200; 0; 0; 0; 0; 0]%Q.
Proof.
  intros Halloc. unfold sample_cost, create_cost_hamiltonian. cbv zeta.
  change (Nat.pow 2 (length [50; 40; 10])) with 8%nat.
  rewrite (zeros_ok _ _ Halloc). cbn [bind].
  eexists. split; [vm_compute; reflexivity |]. split.
  - split; [reflexivity |]. repeat constructor.
  - repeat constructor.
Qed.

Lemma sample_cost_diagonal_witness :
  ∃ m, sample_cost (M := workstation) = Ok m ∧ square 8 m ∧
       Forall2 denotes (diagonal m) [1500; 2400 + 100; 200; 0; 0; 0; 0; 0]%Q.
Proof. apply (sample_cost_diagonal (M := workstation)). reflexivity. Defined.

End SignalFacts.

(** ** path-rerouting-solver.py: travel time and the cost matrix *)

Module PathFacts.
Import Path.




(** At the fixed vehicle speed nothing is divided by zero. *)
Lemma travel_time_at_vehicle_speed (d : Z) :
  calculate_travel_time (Int d) (Int vehicle_speed)
  = let* x := as_float (Int d) in Ok (f64_div x speed_km_per_min).
Proof.
  unfold calculate_travel_time.
  change (as_float (Int vehicle_speed)) with (Ok (float_of_Z vehicle_speed)).
  cbn [bind]. fold speed_km_per_min.
  assert (Hnz : is_zero speed_km_per_min = false) by (vm_compute; reflexivity).
  by rewrite Hnz.
Qed.

(** [distances[i][j]] is there for [i, j < 3]. *)
Lemma distances_getitem (i j : nat) :
  (i < 3)%nat → (j < 3)%nat →
  getitem distances i = Ok (nth i distances []) ∧
  getitem (nth i distances []) j = Ok (nth j (nth i distances []) 0).
Proof.
  intros Hi Hj.
  do 3 (destruct i as [|i]; [do 3 (destruct j as [|j]; [done |]); lia |]). lia.
Qed.

Lemma distances_small (i j : nat) : Z.abs (nth j (nth i distances []) 0) < 2 ^ 53.
Proof.
  do 3 (destruct i as [|i]; [do 3 (destruct j as [|j]; [done |]); by destruct j |]).
  by destruct i, j.
Qed.

Lemma travel_time_of_table (i j : nat) :
  calculate_travel_time (Int (nth j (nth i distances []) 0)) (Int vehicle_speed)
  = Ok (travel_minutes i j).
Proof.
  rewrite travel_time_at_vehicle_speed.
  by rewrite as_float_Int by apply fits_float64_small, distances_small.
Qed.

(** The loop over [j], run on row [i = start]. *)
Lemma travel_loop_represents (start : Z) (n N i : nat) f m :
  Z.of_nat i = start → (n ≤ 3)%nat → (i < n)%nat → (n < N)%nat →
  represents N f m →
  ∃ m', for_each (travel_step start i) (range n) m = Ok m' ∧
        represents N
          (λ a b, if bool_decide (a = i ∧ b ≠ i ∧ (b < n)%nat)
                  then f64_add (f a b) (travel_minutes i b) else f a b) m'.
Proof.
  intros Hstart Hn Hi HN Hm.
  pose (P := λ (k : nat) (m : matrix),
    represents N
      (λ a b, if bool_decide (a = i ∧ b ≠ i ∧ (b < k)%nat)
              then f64_add (f a b) (travel_minutes i b) else f a b) m).
  apply (for_each_range_inv (travel_step start i) P); unfold P.
  - eapply represents_ext; [| exact Hm].
    intros a b _ _. simpl. by rewrite bool_decide_eq_false_2 by lia.
  - intros j t Hj Ht. unfold travel_step. case_bool_decide as Hjs.
    + destruct (distances_getitem i j) as [Hrow Hd]; [lia | lia |].
      rewrite Hrow. cbn [bind]. rewrite Hd. cbn [bind].
      rewrite travel_time_of_table. cbn [bind].
      destruct (iadd_represents N _ t i j (Float (travel_minutes i j))
                  (travel_minutes i j) Ht) as (t' & -> & Ht'); [lia | lia | done |].
      exists t'. split; [done |]. eapply represents_ext; [| exact Ht'].
      intros a b _ _. simpl.
      repeat case_bool_decide; try (exfalso; lia); try reflexivity.
      destruct_and!. by subst.
    + exists t. split; [done |]. eapply represents_ext; [| exact Ht].
      intros a b _ _. simpl.
      repeat case_bool_decide; try (exfalso; lia); reflexivity.
Qed.

(** The whole matrix, for any start node; when the start node is one of
    the [n] intersections the distance table has to cover them, and the
    waiting time has to convert to a float. *)
Lemma create_path_cost_hamiltonian_represents {M : Machine} (start end_node : Z)
    (tf st : list Z) (ef : list bool) :
  np_zeros_error (2 ^ length tf) (2 ^ length tf) = None →
  (0 ≤ start < Z.of_nat (length tf) →
   (length tf ≤ 3)%nat ∧ start < Z.of_nat (length st) ∧
   fits_float64 (nth (Z.to_nat start) st 0 * nth (Z.to_nat start) tf 0)) →
  ∃ m, create_path_cost_hamiltonian start end_node tf st ef = Ok m ∧
       represents (2 ^ length tf)
         (λ a b, if bool_decide (Z.of_nat a = start ∧ (a < length tf)%nat)
                 then start_row tf st (length tf) a b else pzero) m.
Proof.
  intros Halloc Hin. unfold create_path_cost_hamiltonian.
  rewrite (zeros_ok _ _ Halloc). cbn [bind].
  set (n := length tf) in *. set (N := (2 ^ n)%nat).
  pose (P := λ (k : nat) (m : matrix),
    represents N
      (λ a b, if bool_decide (Z.of_nat a = start ∧ (a < k)%nat)
              then start_row tf st n a b else pzero) m).
  apply (for_each_range_inv (start_step start tf st n) P); unfold P.
  - eapply represents_ext; [| apply replicate_represents].
    intros a b _ _. simpl. by rewrite bool_decide_eq_false_2 by lia.
  - intros i m Hi Hm. unfold start_step. case_bool_decide as His.
    + destruct Hin as (Hn & Hst & Hfits); [lia |].
      assert (Z.to_nat start = i) as Hsi by lia. rewrite Hsi in Hfits.
      rewrite (getitem_nth st i 0) by lia. cbn [bind].
      rewrite (getitem_nth tf i 0) by (fold n; lia). cbn [bind].
      pose proof (lt_pow2 n i Hi) as HiN. fold N in HiN.
      destruct (iadd_represents N _ m i i (Int (nth i st 0 * nth i tf 0))
                  (float_of_Z (nth i st 0 * nth i tf 0)) Hm HiN HiN)
        as (m1 & -> & Hm1); [by apply as_float_Int |]. cbn [bind].
      assert (HN : (n < N)%nat).
      { pose proof (Nat.pow_gt_lin_r 2 n). unfold N. lia. }
      destruct (travel_loop_represents start n N i _ m1 His Hn Hi HN Hm1)
        as (m2 & -> & Hm2).
      exists m2. split; [done |]. eapply represents_ext; [| exact Hm2].
      intros a b _ _. simpl. unfold start_row.
      repeat case_bool_decide; try (exfalso; lia); try reflexivity;
        destruct_and?; subst; try (exfalso; lia); try reflexivity.
    + exists m. split; [done |]. eapply represents_ext; [| exact Hm].
      intros a b _ _. simpl.
      repeat case_bool_decide; try (exfalso; lia); reflexivity.
Qed.

(** The travel times of the table are exact: 0, 1.5 and 3 minutes. *)
Lemma travel_minutes_denotes (i j : nat) :
  (i < 3)%nat → (j < 3)%nat →
  denotes (f64_add pzero (travel_minutes i j))
    (inject_Z (nth j (nth i distances []) 0%Z) / (inject_Z 40 / 60))%Q.
Proof.
  intros Hi Hj.
  do 3 (destruct i as [|i];
        [do 3 (destruct j as [|j]; [vm_compute; reflexivity |]); lia |]).
  lia.
Qed.

(** The path script's own run: row 0 holds the waiting time 30 and the
    travel times 1.5 and 3 minutes; every other entry of the 8 × 8 matrix
    is zero. *)
Example sample_path_cost :
  ∃ m, create_path_cost_hamiltonian (M := workstation) 0 2 [1; 0; 0] [30; 60; 20]
         [false; true; false] = Ok m ∧
       Forall2 (Forall2 denotes) m
         ([30; 3 # 2; 3; 0; 0; 0; 0; 0] :: replicate 7 (replicate 8 0))%Q.
Proof. eexists. split; [vm_compute; reflexivity |]. repeat constructor. Qed.

(** Beyond the distance table: with more than three intersections and a
    start node among them the function raises. *)
Lemma travel_step_raises (start : Z) (i j : nat) (t : matrix) :
  Z.of_nat j ≠ start → (3 ≤ i ∨ 3 ≤ j)%nat → raises (travel_step start i t j).
Proof.
  intros Hj Hij. unfold travel_step. rewrite bool_decide_eq_true_2 by done.
  do 3 (destruct i as [|i];
        [do 3 (destruct j as [|j]; [exfalso; lia |]); done |]).
  done.
Qed.

Lemma travel_step_fails_among (start : Z) (i j : nat) (t : matrix) :
  fails_among index_or_overflow (travel_step start i t j).
Proof.
  unfold travel_step. case_bool_decide; [| done].
  apply fails_among_bind.
  { apply (fails_only_among _ IndexError); [by left | apply getitem_fails_only]. }
  intros row. apply fails_among_bind.
  { apply (fails_only_among _ IndexError); [by left | apply getitem_fails_only]. }
  intros d. rewrite travel_time_at_vehicle_speed. apply fails_among_bind.
  { apply fails_among_bind; [| done].
    apply (fails_only_among _ OverflowError); [by right | apply as_float_fails_only]. }
  intros x. apply iadd_fails_among.
Qed.

Lemma start_step_fails_among (start : Z) (tf st : list Z) (n i : nat) (t : matrix) :
  fails_among index_or_overflow (start_step start tf st n t i).
Proof.
  unfold start_step. case_bool_decide; [| done].
  apply fails_among_bind.
  { apply (fails_only_among _ IndexError); [by left | apply getitem_fails_only]. }
  intros s. apply fails_among_bind.
  { apply (fails_only_among _ IndexError); [by left | apply getitem_fails_only]. }
  intros f. apply fails_among_bind; [apply iadd_fails_among |]. intros t'.
  apply for_each_fails_among. intros u j. apply travel_step_fails_among.
Qed.

Lemma start_loop_beyond_table (start : Z) (tf st : list Z) (m : matrix) :
  (3 < length tf)%nat → 0 ≤ start < Z.of_nat (length tf) →
  raises (for_each (start_step start tf st (length tf)) (range (length tf)) m).
Proof.
  intros Hn Hstart.
  apply (for_each_raises _ _ (Z.to_nat start)).
  { apply elem_of_seq. lia. }
  intros t. unfold start_step. rewrite bool_decide_eq_true_2 by lia.
  apply raises_bind. intros s. apply raises_bind. intros f.
  apply raises_bind. intros t'.
  apply (for_each_raises _ _ (if decide (Z.to_nat start = 3%nat) then 0%nat else 3%nat)).
  - apply elem_of_seq. case_decide; lia.
  - intros u. apply travel_step_raises; case_decide; lia.
Qed.

Lemma create_path_cost_hamiltonian_beyond_table {M : Machine} (start end_node : Z)
    (tf st : list Z) (ef : list bool) :
  (3 < length tf)%nat → 0 ≤ start < Z.of_nat (length tf) →
  raises (create_path_cost_hamiltonian start end_node tf st ef).
Proof.
  intros Hn Hstart. unfold create_path_cost_hamiltonian.
  apply raises_bind. intros m. by apply start_loop_beyond_table.
Qed.

(** C4, as stated, fails. The distance table is fixed at 3 × 3: with four
    intersections and a start node among them the function raises
    [IndexError] at [distances[0][3]] and returns no matrix, on any
    machine. And the matrix holds floats: a waiting time beyond the
    largest float makes the function raise [OverflowError]. *)
Lemma create_path_cost_hamiltonian_not_for_every_n :
  create_path_cost_hamiltonian (M := workstation) 0 3 [1; 0; 0; 0] [30; 60; 20; 45]
    [false; true; false; false] = Raise IndexError ∧
  (¬ ∃ (M : Machine) m,
       create_path_cost_hamiltonian (M := M) 0 3 [1; 0; 0; 0] [30; 60; 20; 45]
         [false; true; false; false] = Ok m) ∧
  create_path_cost_hamiltonian (M := workstation) 0 0 [1] [10 ^ 400] [false]
  = Raise OverflowError.
Proof.
  split; [vm_compute; reflexivity |]. split; [| vm_compute; reflexivity].
  intros (M & m & Hrun).
  pose proof (create_path_cost_hamiltonian_beyond_table (M := M) 0 3 [1; 0; 0; 0]
                [30; 60; 20; 45] [false; true; false; false]) as Hraise.
  rewrite Hrun in Hraise. apply Hraise; simpl; lia.
Qed.

(** C4, amended. On a machine that allocates the 2^n × 2^n array, for
    input vectors of length [n ≤ 3] (the size of the distance table), a
    start node in [0, n) and a waiting time
    [signal_timings[start] * traffic_flows[start]] below 2^53 in
    magnitude, whatever the end node, [create_path_cost_hamiltonian]
    returns a 2^n × 2^n matrix that is zero outside row [start]; in that
    row entry [(start, start)] is the waiting time, entry [(start, j)]
    for [j ≠ start], [j < n] is [distances[start][j] / (40 / 60)], and
    the entries in the columns [j ≥ n] are zero. Every entry is a finite
    float with exactly that value. *)
Theorem create_path_cost_hamiltonian_start_row {M : Machine} (start end_node : Z)
    (traffic_flows signal_timings : list Z) (emergency_flags : list bool) :
  np_zeros_error (2 ^ length traffic_flows) (2 ^ length traffic_flows) = None →
  length signal_timings = length traffic_flows →
  (length traffic_flows ≤ 3)%nat →
  0 ≤ start < Z.of_nat (length traffic_flows) →
  Z.abs (nth (Z.to_nat start) signal_timings 0
         * nth (Z.to_nat start) traffic_flows 0) < 2 ^ 53 →
  ∃ m, create_path_cost_hamiltonian start end_node traffic_flows signal_timings
         emergency_flags = Ok m ∧
       square (2 ^ length traffic_flows) m ∧
       ∀ i j : nat,
         (i < 2 ^ length traffic_flows)%nat →
         (j < 2 ^ length traffic_flows)%nat →
         ∃ x, entry m i j = Some x ∧
           denotes x
             (if bool_decide (Z.of_nat i = start) then
                if bool_decide (j = i) then
                  inject_Z (nth i signal_timings 0 * nth i traffic_flows 0)%Z
                else if bool_decide (j < length traffic_flows)%nat then
                  inject_Z (nth j (nth i distances []) 0%Z) / (inject_Z 40 / 60)
                else 0
              else 0)%Q.
Proof.
  intros Halloc Hst Hn Hstart Hsmall. set (n := length traffic_flows) in *.
  destruct (create_path_cost_hamiltonian_represents start end_node traffic_flows
              signal_timings emergency_flags Halloc)
    as (m & Hrun & [Hsq Hm]).
  { intros _. fold n. split; [done |]. split; [lia |]. by apply fits_float64_small. }
  exists m. split; [done |]. split; [done |]. intros i j Hi Hj.
  rewrite (Hm i j Hi Hj). eexists. split; [done |]. fold n. unfold start_row.
  repeat case_bool_decide; try (exfalso; lia); try reflexivity.
  - assert (Z.to_nat start = i) as Hsi by lia. rewrite Hsi in Hsmall.
    rewrite f64_add_pzero_l by done. by apply float_of_Z_denotes.
  - apply travel_minutes_denotes; lia.
Qed.

Lemma create_path_cost_hamiltonian_start_row_witness :
  ∃ m, create_path_cost_hamiltonian (M := workstation) 0 2 [1; 0; 0] [30; 60; 20]
         [false; true; false] = Ok m ∧
       square 8 m ∧
       ∀ i j : nat, (i < 8)%nat → (j < 8)%nat →
         ∃ x, entry m i j = Some x ∧
           denotes x
             (if bool_decide (Z.of_nat i = 0%Z) then
                if bool_decide (j = i) then
                  inject_Z (nth i [30; 60; 20] 0 * nth i [1; 0; 0] 0)%Z
                else if bool_decide (j < 3)%nat then
                  inject_Z (nth j (nth i distances []) 0%Z) / (inject_Z 40 / 60)
                else 0
              else 0)%Q.
Proof.
  apply (create_path_cost_hamiltonian_start_row (M := workstation) 0 2 [1; 0; 0]
           [30; 60; 20] [false; true; false]);
    [reflexivity | reflexivity | simpl; lia | simpl; lia | simpl; lia].
Defined.

(** C9. [create_path_cost_hamiltonian] reads neither its end node nor its
    emergency flags: two calls that agree on the start node, the traffic
    flows and the signal timings give the same outcome. *)
Theorem create_path_cost_hamiltonian_ignores_end_and_flags {M : Machine}
    (start end1 end2 : Z) (traffic_flows signal_timings : list Z)
    (flags1 flags2 : list bool) :
  create_path_cost_hamiltonian start end1 traffic_flows signal_timings flags1 =
  create_path_cost_hamiltonian start end2 traffic_flows signal_timings flags2.
Proof. reflexivity. Qed.

End PathFacts.
(** ** Decoding *)

Lemma length_list_ascii_of_string (s : string) :
  length (list_ascii_of_string s) = String.length s.
Proof. induction s as [|c s IH]; simpl; [done | by rewrite IH]. Qed.

Lemma filter_ext_elem {A : Type} (P1 P2 : A → Prop)
    `{!∀ x, Decision (P1 x), !∀ x, Decision (P2 x)} (l : list A) :
  (∀ x, x ∈ l → P1 x ↔ P2 x) → filter P1 l = filter P2 l.
Proof.
  induction l as [|a l IH]; intros Hiff; [done |].
  rewrite !filter_cons.
  rewrite IH by (intros x Hx; apply Hiff; by right).
  assert (Ha : P1 a ↔ P2 a) by (apply Hiff; by left).
  destruct (decide (P1 a)), (decide (P2 a)); tauto || done.
Qed.

Lemma StronglySorted_filter {A : Type} (R : relation A) (P : A → Prop)
    `{!∀ x, Decision (P x)} (l : list A) :
  StronglySorted R l → StronglySorted R (filter P l).
Proof.
  induction 1 as [|a l Hl IH Ha]; [constructor |].
  rewrite filter_cons. destruct (decide (P a)); [| done].
  constructor; [done |]. apply Forall_forall. intros x Hx.
  apply list_elem_of_filter in Hx as [_ Hx].
  by apply (proj1 (Forall_forall _ _) Ha).
Qed.

Lemma StronglySorted_seq (a len : nat) : StronglySorted lt (seq a len).
Proof.
  revert a. induction len as [|len IH]; intros a; simpl; constructor; [apply IH |].
  apply Forall_forall. intros j Hj. apply elem_of_seq in Hj. lia.
Qed.

Module DecodeFacts.
Import Signal Path.

Lemma signal_timings_lookup_bit (c : ascii) :
  timing_bit c → signal_timings !! c = Some (timing_of c).
Proof. by intros [-> | [-> | ->]]. Qed.

Lemma signal_timings_lookup_other (c : ascii) :
  ¬ timing_bit c → signal_timings !! c = None.
Proof.
  intros Hc. unfold signal_timings, timing_bit in *.
  rewrite !lookup_insert_ne by (intros <-; tauto).
  apply lookup_singleton_None. intros <-. tauto.
Qed.

(** The loop of [decode_signals] from any accumulator: it appends the
    timing of each accepted character, in order. *)
Lemma decode_loop_ok (bits : list ascii) (acc : list Z) :
  Forall timing_bit bits →
  for_each decode_step bits acc = Ok (acc ++ (timing_of <$> bits)).
Proof.
  revert acc. induction bits as [|c bits IH]; intros acc Hbits; simpl.
  - by rewrite app_nil_r.
  - apply Forall_cons_1 in Hbits as [Hc Hbits]. unfold decode_step at 1.
    rewrite (signal_timings_lookup_bit c Hc). cbn [bind].
    rewrite IH by done. by rewrite <- app_assoc.
Qed.

(** It raises [ValueError], naming the first character that is not
    accepted, exactly when there is one. *)
Lemma decode_loop_raises (bits : list ascii) (acc : list Z) :
  Exists (λ c, ¬ timing_bit c) bits →
  ∃ c, c ∈ bits ∧ ¬ timing_bit c ∧
       for_each decode_step bits acc =
       Raise (ValueError ("Unexpected bit '" +:+ String c "' in binary string.")).
Proof.
  revert acc. induction bits as [|c bits IH]; intros acc Hbits.
  - by apply Exists_nil in Hbits.
  - simpl. unfold decode_step at 1. destruct (decide (timing_bit c)) as [Hc | Hc].
    + rewrite (signal_timings_lookup_bit c Hc). cbn [bind].
      apply Exists_cons in Hbits as [? | Hbits]; [done |].
      destruct (IH (acc ++ [timing_of c]) Hbits) as (c' & Hin & Hc' & Hrun).
      exists c'. split; [by right | done].
    + rewrite (signal_timings_lookup_other c Hc). cbn [bind].
      exists c. split; [by left | done].
Qed.

(** C2. On a string whose characters are all among '0', '1', '2',
    [decode_signals] returns the list of their timings under
    {'0' -> 20, '1' -> 30, '2' -> 60}, in order; it raises [ValueError]
    if and only if some character is outside that set; "012" gives
    [20, 30, 60] and "3" raises. *)
Theorem decode_signals_spec (binary_string : string) :
  (Forall timing_bit (list_ascii_of_string binary_string) →
   decode_signals binary_string
   = Ok (timing_of <$> list_ascii_of_string binary_string)) ∧
  ((∃ msg, decode_signals binary_string = Raise (ValueError msg)) ↔
   Exists (λ c, ¬ timing_bit c) (list_ascii_of_string binary_string)) ∧
  decode_signals "012" = Ok [20; 30; 60] ∧
  (∃ msg, decode_signals "3" = Raise (ValueError msg)).
Proof.
  unfold decode_signals. repeat split.
  - intros Hbits. by rewrite decode_loop_ok.
  - intros [msg Hraise].
    destruct (decide (Forall timing_bit (list_ascii_of_string binary_string)))
      as [Hall | Hsome].
    + by rewrite decode_loop_ok in Hraise.
    + by apply not_Forall_Exists in Hsome; [| apply _].
  - intros Hsome.
    destruct (decode_loop_raises _ [] Hsome) as (c & _ & _ & ->). by eexists.
  - by eexists.
Qed.

Lemma decode_signals_spec_witness :
  Forall timing_bit (list_ascii_of_string "012") ∧
  decode_signals "012" = Ok (timing_of <$> list_ascii_of_string "012").
Proof.
  assert (Hbits : Forall timing_bit (list_ascii_of_string "012")).
  { repeat constructor; unfold timing_bit; tauto. }
  split; [exact Hbits |].
  exact (proj1 (decode_signals_spec "012") Hbits).
Defined.

(** C10. On the empty string [decode_signals] returns the empty list, and
    whenever it returns, the result is as long as the input and each of
    its elements is 20, 30 or 60. *)
Theorem decode_signals_length_and_range :
  decode_signals "" = Ok [] ∧
  ∀ (binary_string : string) (decoded_timings : list Z),
    decode_signals binary_string = Ok decoded_timings →
    length decoded_timings = String.length binary_string ∧
    Forall (λ t, t = 20 ∨ t = 30 ∨ t = 60) decoded_timings.
Proof.
  split; [done |]. intros s l. unfold decode_signals. intros Hrun.
  destruct (decide (Forall timing_bit (list_ascii_of_string s))) as [Hall | Hsome].
  - rewrite decode_loop_ok in Hrun by done. injection Hrun as <-. split.
    + by rewrite length_fmap, length_list_ascii_of_string.
    + apply Forall_fmap, Forall_forall. intros c _. unfold timing_of. simpl.
      destruct (Ascii.eqb c "0"), (Ascii.eqb c "1"); tauto.
  - apply not_Forall_Exists in Hsome; [| apply _].
    destruct (decode_loop_raises _ [] Hsome) as (c & _ & _ & Hraise).
    by rewrite Hraise in Hrun.
Qed.

Lemma decode_signals_length_and_range_witness :
  decode_signals "012" = Ok [20; 30; 60] ∧
  length [20; 30; 60] = String.length "012" ∧
  Forall (λ t, t = 20 ∨ t = 30 ∨ t = 60) [20; 30; 60].
Proof.
  split; [reflexivity |].
  exact (proj2 decode_signals_length_and_range "012" [20; 30; 60] eq_refl).
Defined.

(** The loop of [decode_path] over the characters of the string. *)
Lemma decode_path_bits (bits : list ascii) :
  foldl path_step [] (imap (λ i c, (i, c)) bits)
  = filter (λ i, bits !! i = Some "1"%char) (seq 0 (length bits)).
Proof.
  induction bits as [|c bits IH] using rev_ind; [done |].
  rewrite imap_app, foldl_app, IH, length_app, seq_app, filter_app. simpl.
  rewrite Nat.add_0_r.
  rewrite (filter_ext_elem (λ i, (bits ++ [c]) !! i = Some "1"%char)
             (λ i, bits !! i = Some "1"%char) (seq 0 (length bits))).
  - rewrite filter_cons, filter_nil.
    rewrite list_lookup_middle by done.
    destruct (Ascii.eqb_spec c "1") as [-> | Hc].
    + by rewrite decide_True.
    + rewrite decide_False; [by rewrite app_nil_r |]. congruence.
  - intros i Hi. apply elem_of_seq in Hi. by rewrite lookup_app_l by lia.
Qed.

(** C3. [decode_path] returns exactly the indices [i] with [s[i] == '1'],
    in increasing order: the positions [0 .. len(s) - 1] filtered by that
    test; "000" gives the empty list and "101" gives [0, 2]. *)
Theorem decode_path_spec (binary_string : string) :
  decode_path binary_string
  = filter (λ i, list_ascii_of_string binary_string !! i = Some "1"%char)
      (seq 0 (String.length binary_string)) ∧
  (∀ i : nat, i ∈ decode_path binary_string ↔
              list_ascii_of_string binary_string !! i = Some "1"%char) ∧
  StronglySorted lt (decode_path binary_string) ∧
  decode_path "000" = [] ∧
  decode_path "101" = [0; 2]%nat.
Proof.
  assert (Heq : decode_path binary_string
    = filter (λ i, list_ascii_of_string binary_string !! i = Some "1"%char)
        (seq 0 (String.length binary_string))).
  { unfold decode_path, enumerate.
    by rewrite decode_path_bits, length_list_ascii_of_string. }
  split; [exact Heq |]. split; [| split; [| done]].
  - intros i. rewrite Heq, list_elem_of_filter, elem_of_seq. split; [tauto |].
    intros Hi. split; [done |]. apply lookup_lt_Some in Hi.
    rewrite length_list_ascii_of_string in Hi. lia.
  - rewrite Heq. apply StronglySorted_filter, StronglySorted_seq.
Qed.

End DecodeFacts.

(** ** Selection of the most frequent bit-string *)

Module SelectFacts.

Lemma foldl_max_bounds (x : Z) (xs : list Z) :
  x ≤ foldl Z.max x xs ∧
  Forall (λ y, y ≤ foldl Z.max x xs) xs ∧
  foldl Z.max x xs ∈ x :: xs.
Proof.
  revert x. induction xs as [|y ys IH]; intros x; simpl.
  - repeat split; [lia | constructor | by left].
  - destruct (IH (Z.max x y)) as (Hge & Hall & Hin). repeat split.
    + lia.
    + constructor; [lia | done].
    + apply elem_of_cons in Hin as [Heq | Hin]; [| by do 2 right].
      rewrite Heq. destruct (Z.max_spec x y) as [[_ ->] | [_ ->]];
        [right; left | left]; done.
Qed.

(** [max] of a list that is not empty is one of its elements and bounds
    them all. *)
Lemma py_max_spec (l : list Z) :
  l ≠ [] → ∃ c, py_max l = Ok c ∧ c ∈ l ∧ Forall (λ y, y ≤ c) l.
Proof.
  destruct l as [|x xs]; [done |]. intros _.
  destruct (foldl_max_bounds x xs) as (Hge & Hall & Hin).
  exists (foldl Z.max x xs). repeat split; [done |]. by constructor.
Qed.

(** A key of a dict is looked up to its own count. *)
Lemma dict_getitem_elem (d : counts) (k : string) (v : Z) :
  NoDup (keys d) → (k, v) ∈ d → dict_getitem d k = Ok v.
Proof.
  unfold keys. induction d as [|[k' v'] d IH]; intros Hnd Hin.
  - by apply elem_of_nil in Hin.
  - simpl in *. apply NoDup_cons in Hnd as [Hk' Hnd].
    apply elem_of_cons in Hin as [Heq | Hin].
    + injection Heq as -> ->. by rewrite String.eqb_refl.
    + destruct (String.eqb_spec k k') as [-> | _]; [| by apply IH].
      exfalso. apply Hk'. apply list_elem_of_fmap. by exists (k', v).
Qed.

(** The loop with [break], run over the keys of a suffix of the dict that
    holds the wanted count: it stops at the first such key. *)
Lemma first_with_count_suffix (d pre suf : counts) (c : Z) :
  NoDup (keys d) → d = pre ++ suf → Exists (λ p, p.2 = c) suf →
  ∃ l1 k l2, suf = l1 ++ (k, c) :: l2 ∧
             Forall (λ p, p.2 ≠ c) l1 ∧
             first_with_count d (keys suf) c = Ok (Some k).
Proof.
  intros Hnd. revert pre. induction suf as [|[k v] suf IH]; intros pre Hd Hex.
  - by apply Exists_nil in Hex.
  - simpl. rewrite (dict_getitem_elem d k v Hnd); [| rewrite Hd; set_solver].
    cbn [bind]. destruct (Z.eqb_spec v c) as [-> | Hvc].
    + exists [], k, suf. split; [done |]. split; [constructor | done].
    + apply Exists_cons in Hex as [? | Hex]; [done |].
      destruct (IH (pre ++ [(k, v)])) as (l1 & k' & l2 & -> & Hl1 & Hrun);
        [by rewrite <- app_assoc | done |].
      exists ((k, v) :: l1), k', l2. repeat split; [| done].
      by constructor.
Qed.

(** C6. For a frequency table that is not empty, the bit-string selected
    for decoding is the first key, in iteration order, whose count equals
    the maximum count of the table: the table splits as
    [l1 ++ (k, c) :: l2] with [c] the maximum, every count in [l1] below
    [c], and [k] selected. *)
Theorem select_optimum_first_maximum (optimization_result : counts) :
  optimization_result ≠ [] →
  NoDup (keys optimization_result) →
  ∃ l1 k c l2,
    optimization_result = l1 ++ (k, c) :: l2 ∧
    Forall (λ p, p.2 ≤ c) optimization_result ∧
    Forall (λ p, p.2 < c) l1 ∧
    select_optimum optimization_result = Ok k.
Proof.
  intros Hne Hnd. unfold select_optimum.
  destruct (py_max_spec (values optimization_result)) as (c & -> & Hin & Hmax).
  { unfold values. by destruct optimization_result. }
  cbn [bind]. unfold values in *.
  assert (Hle : Forall (λ p, p.2 ≤ c) optimization_result).
  { apply Forall_forall. intros p Hp.
    apply (proj1 (Forall_forall (λ y, y ≤ c) _) Hmax).
    apply list_elem_of_fmap. by exists p. }
  destruct (first_with_count_suffix optimization_result [] optimization_result c)
    as (l1 & k & l2 & Hsplit & Hl1 & ->); [done | done | |].
  { apply Exists_exists. apply list_elem_of_fmap in Hin as (p & -> & Hp).
    by exists p. }
  cbn [bind]. exists l1, k, c, l2.
  split; [done |]. split; [exact Hle |]. split; [| done].
  rewrite Hsplit in Hle. apply Forall_app in Hle as [Hle _].
  apply Forall_forall. intros p Hp.
  pose proof (proj1 (Forall_forall _ _) Hl1 p Hp).
  pose proof (proj1 (Forall_forall _ _) Hle p Hp). simpl in *. lia.
Qed.

Example select_optimum_tie :
  select_optimum [("000"%string, 3); ("101"%string, 7); ("111"%string, 7)]
  = Ok "101"%string.
Proof. reflexivity. Qed.

Lemma select_optimum_first_maximum_witness :
  ∃ l1 k c l2,
    [("000"%string, 3); ("101"%string, 7); ("111"%string, 7)]
    = l1 ++ (k, c) :: l2 ∧
    Forall (λ p, p.2 ≤ c)
      [("000"%string, 3); ("101"%string, 7); ("111"%string, 7)] ∧
    Forall (λ p, p.2 < c) l1 ∧
    select_optimum [("000"%string, 3); ("101"%string, 7); ("111"%string, 7)]
    = Ok k.
Proof.
  apply (select_optimum_first_maximum
           [("000"%string, 3); ("101"%string, 7); ("111"%string, 7)]).
  - discriminate.
  - unfold keys. simpl. compute_done.
Defined.

End SelectFacts.

(** ** Circuit construction *)

Module CircuitFacts.

(** One rotation step reads the matrix at [(i, i)] and nowhere else. *)
Lemma rotation_step_diagonal (c1 c2 : matrix) (qc : QuantumCircuit) (i : nat) :
  entry c1 i i = entry c2 i i →
  rotation_step c1 qc i = rotation_step c2 qc i.
Proof.
  unfold entry, rotation_step, getitem. intros Hd.
  destruct (c1 !! i) as [r1 |], (c2 !! i) as [r2 |]; simpl.
  - by rewrite Hd.
  - rewrite Hd. done.
  - rewrite <- Hd. done.
  - done.
Qed.

Lemma rotation_step_entry (c : matrix) (qc : QuantumCircuit) (i : nat) (x : float64) :
  entry c i i = Some x →
  rotation_step c qc i
  = Ok (mkCircuit (num_qubits qc)
          (data qc ++ [RZ (Theta x) i; RX HalfPi i])).
Proof.
  unfold entry, rotation_step, getitem. intros Hx.
  destruct (c !! i) as [row |]; [| done]. simpl. rewrite Hx. simpl.
  unfold rx, rz, append. simpl. by rewrite <- app_assoc.
Qed.

Lemma h_fold (qubits : list nat) (qc : QuantumCircuit) :
  foldl (λ qc q, append (H q) qc) qc qubits
  = mkCircuit (num_qubits qc) (data qc ++ (H <$> qubits)).
Proof.
  revert qc. induction qubits as [|q qs IH]; intros qc; simpl.
  - rewrite app_nil_r. by destruct qc.
  - rewrite IH. unfold append. simpl. by rewrite <- app_assoc.
Qed.

Lemma h_range (n : nat) (qc : QuantumCircuit) :
  (0 < n)%nat →
  h (range n) qc = Ok (mkCircuit (num_qubits qc) (data qc ++ (H <$> range n))).
Proof.
  intros Hn. unfold h. rewrite h_fold.
  destruct n as [|n]; [lia | done].
Qed.

Lemma measure_all_data (qc : QuantumCircuit) :
  measure_all qc
  = mkCircuit (num_qubits qc)
      (data qc ++ Barrier :: ((λ q, Measure q q) <$> range (num_qubits qc))).
Proof.
  unfold measure_all.
  assert (Hfold : ∀ qs qc',
    foldl (λ qc q, append (Measure q q) qc) qc' qs
    = mkCircuit (num_qubits qc') (data qc' ++ ((λ q, Measure q q) <$> qs))).
  { induction qs as [|q qs IH]; intros qc'; simpl.
    - rewrite app_nil_r. by destruct qc'.
    - rewrite IH. unfold append. simpl. by rewrite <- app_assoc. }
  rewrite Hfold. unfold append. simpl. by rewrite <- app_assoc.
Qed.

Lemma layer_run (c : matrix) (theta : nat → float64) (qubits : list nat)
    (qc : QuantumCircuit) :
  (∀ i, i ∈ qubits → entry c i i = Some (theta i)) →
  for_each (rotation_step c) qubits qc
  = Ok (mkCircuit (num_qubits qc) (data qc ++ layer theta qubits)).
Proof.
  unfold layer. revert qc. induction qubits as [|i qs IH]; intros qc Hd; simpl.
  - rewrite app_nil_r. by destruct qc.
  - rewrite (rotation_step_entry c qc i (theta i)) by (apply Hd; by left).
    simpl. rewrite IH by (intros j Hj; apply Hd; by right). simpl.
    by rewrite <- app_assoc.
Qed.

Lemma layers_run (c : matrix) (theta : nat → float64) (qubits : list nat)
    {L : Type} (layers : list L) (qc : QuantumCircuit) :
  (∀ i, i ∈ qubits → entry c i i = Some (theta i)) →
  for_each (λ qc (_ : L), for_each (rotation_step c) qubits qc) layers qc
  = Ok (mkCircuit (num_qubits qc)
          (data qc ++ mjoin (replicate (length layers) (layer theta qubits)))).
Proof.
  intros Hd. revert qc. induction layers as [|l ls IH]; intros qc; simpl.
  - rewrite app_nil_r. by destruct qc.
  - rewrite (layer_run c theta) by done. simpl. rewrite IH. simpl.
    by rewrite <- app_assoc.
Qed.

(** The instruction list when there is a qubit and the diagonal entries
    are there. *)
Lemma qaoa_circuit_shape (n p : nat) (c : matrix) (theta : nat → float64) :
  (0 < n)%nat →
  (∀ i : nat, (i < n)%nat → entry c i i = Some (theta i)) →
  qaoa_circuit n c p = Ok (mkCircuit n (qaoa_instructions n p theta)).
Proof.
  intros Hn Htheta. unfold qaoa_circuit, qaoa_instructions.
  rewrite h_range by done. cbn [bind].
  rewrite (layers_run c theta).
  - cbn [bind]. rewrite measure_all_data.
    unfold new_circuit. cbn [num_qubits data]. unfold range.
    rewrite length_seq, app_nil_l. by rewrite <- app_assoc.
  - intros i Hi. apply Htheta. apply elem_of_seq in Hi. lia.
Qed.

(** Without a qubit the Hadamard call is refused. *)
Lemma qaoa_circuit_no_qubit (p : nat) (c : matrix) :
  qaoa_circuit 0 c p = Raise CircuitError.
Proof. reflexivity. Qed.

(** C7. The circuit depends on the cost matrix through its diagonal
    only: two matrices of one size that agree on every diagonal entry give
    the same outcome of the construction; with at least one qubit and
    diagonal entries [theta i] that outcome is the circuit of one
    Hadamard per qubit, then [p] layers of [RZ (theta i)] and
    [RX (pi / 2)] on each qubit [i], then the measurement; with no qubit
    it is the [CircuitError] of the Hadamard call. *)
Theorem qaoa_circuit_diagonal_only (n p : nat) (c1 c2 : matrix) :
  length c1 = length c2 →
  (∀ i : nat, entry c1 i i = entry c2 i i) →
  qaoa_circuit n c1 p = qaoa_circuit n c2 p ∧
  (∀ theta : nat → float64,
     (0 < n)%nat →
     (∀ i : nat, (i < n)%nat → entry c1 i i = Some (theta i)) →
     qaoa_circuit n c1 p
     = Ok (mkCircuit n
             ((H <$> range n)
              ++ mjoin (replicate p (layer theta (range n)))
              ++ Barrier :: ((λ q, Measure q q) <$> range n)))) ∧
  (n = 0%nat → qaoa_circuit n c1 p = Raise CircuitError).
Proof.
  intros _ Hdiag. split; [| split].
  - unfold qaoa_circuit. destruct (h (range n) (new_circuit n)) as [qc | e]; [| done].
    cbn [bind].
    rewrite (for_each_ext
      (λ qc (_ : nat), for_each (rotation_step c1) (range n) qc)
      (λ qc (_ : nat), for_each (rotation_step c2) (range n) qc)); [done |].
    intros _ qc' _. apply for_each_ext. intros i t _.
    by apply rotation_step_diagonal.
  - intros theta Hn Htheta. by apply qaoa_circuit_shape.
  - intros ->. apply qaoa_circuit_no_qubit.
Qed.

Lemma qaoa_circuit_diagonal_only_witness :
  qaoa_circuit 2 [[float_of_Z 30; Path.travel_minutes 0 1]; [pzero; pzero]] 1
  = qaoa_circuit 2 [[float_of_Z 30; pzero]; [float_of_Z 7; pzero]] 1.
Proof.
  refine (proj1 (qaoa_circuit_diagonal_only 2 1
                   [[float_of_Z 30; Path.travel_minutes 0 1]; [pzero; pzero]]
                   [[float_of_Z 30; pzero]; [float_of_Z 7; pzero]] eq_refl _)).
  intros [|[|[|i]]]; reflexivity.
Defined.

(** The path script's own run: the travel times 1.5 and 3 of row 0 are in
    the matrix and not in the circuit. *)
Example sample_path_circuit :
  Path.qaoa_path_circuit (M := workstation) 0 2 [1; 0; 0] [30; 60; 20]
    [false; true; false] 1
  = Ok (mkCircuit 3
          [H 0; H 1; H 2;
           RZ (Theta (float_of_Z 30)) 0; RX HalfPi 0;
           RZ (Theta pzero) 1; RX HalfPi 1;
           RZ (Theta pzero) 2; RX HalfPi 2;
           Barrier; Measure 0 0; Measure 1 1; Measure 2 2]%nat).
Proof. vm_compute. reflexivity. Qed.

End CircuitFacts.

(** * Further properties of the two scripts *)

(** ** signal-solver.py: bounds of the cost matrix construction *)

Module SignalBounds.
Import Signal.

Lemma cost_step_fails_among tf st ef (t : matrix) (i : nat) :
  fails_among index_or_overflow (cost_step tf st ef t i).
Proof.
  unfold cost_step.
  apply fails_among_bind.
  { apply (fails_only_among _ IndexError); [by left | apply getitem_fails_only]. }
  intros s. apply fails_among_bind.
  { apply (fails_only_among _ IndexError); [by left | apply getitem_fails_only]. }
  intros f. apply fails_among_bind; [apply iadd_fails_among |]. intros t'.
  apply fails_among_bind.
  { apply (fails_only_among _ IndexError); [by left | apply getitem_fails_only]. }
  intros [|]; [| done]. apply iadd_fails_among.
Qed.

Lemma create_cost_hamiltonian_fails_among {M : Machine} tf st ef :
  fails_among
    (λ e, e = IndexError ∨ e = OverflowError ∨
          np_zeros_error (2 ^ length tf) (2 ^ length tf) = Some e)
    (create_cost_hamiltonian tf st ef).
Proof.
  unfold create_cost_hamiltonian, zeros.
  destruct (np_zeros_error (2 ^ length tf) (2 ^ length tf)) as [e |];
    cbn [bind fails_among]; [auto |].
  eapply fails_among_mono;
    [| apply for_each_fails_among; intros t i; apply cost_step_fails_among].
  intros e [-> | ->]; auto.
Qed.

(** Only the first [len(traffic_flows)] elements of the other two vectors
    are read. *)
Lemma create_cost_hamiltonian_take {M : Machine} tf st ef :
  create_cost_hamiltonian tf st ef
  = create_cost_hamiltonian tf (take (length tf) st) (take (length tf) ef).
Proof.
  unfold create_cost_hamiltonian.
  destruct (zeros (2 ^ length tf) (2 ^ length tf)) as [m0 | e]; [| done].
  cbn [bind]. apply for_each_ext.
  intros i t Hi. apply elem_of_seq in Hi. unfold cost_step, getitem.
  by rewrite !lookup_take_lt by lia.
Qed.

Lemma create_cost_hamiltonian_short {M : Machine} tf st ef :
  (length st < length tf ∨ length ef < length tf)%nat →
  raises (create_cost_hamiltonian tf st ef).
Proof.
  intros Hshort. unfold create_cost_hamiltonian. apply raises_bind. intros m0.
  destruct (decide (length st < length tf)%nat) as [Hst | Hst].
  - apply (for_each_raises _ _ (length st)); [apply elem_of_seq; lia |].
    intros t. unfold cost_step, getitem.
    by rewrite (lookup_ge_None_2 st) by lia.
  - apply (for_each_raises _ _ (length ef)); [apply elem_of_seq; lia |].
    intros t. unfold cost_step.
    apply raises_bind. intros s. apply raises_bind. intros f.
    apply raises_bind. intros t'.
    unfold getitem at 1. by rewrite (lookup_ge_None_2 ef) by lia.
Qed.

Lemma create_cost_hamiltonian_overflow {M : Machine} tf st ef (i : nat) :
  (i < length tf)%nat → ¬ fits_float64 (nth i st 0 * nth i tf 0) →
  raises (create_cost_hamiltonian tf st ef).
Proof.
  intros Hi Hbig. unfold create_cost_hamiltonian. apply raises_bind. intros m0.
  apply (for_each_raises _ _ i); [apply elem_of_seq; lia |].
  intros t. unfold cost_step.
  destruct (decide (i < length st)%nat) as [Hst | Hst].
  - rewrite (getitem_nth st i 0) by done. cbn [bind].
    rewrite (getitem_nth tf i 0) by done. cbn [bind].
    by apply raises_bind_l, iadd_overflow.
  - unfold getitem at 1. by rewrite (lookup_ge_None_2 st) by lia.
Qed.

(** When the call returns and why. *)
Lemma create_cost_hamiltonian_ok_iff {M : Machine} tf st ef :
  (∃ m, create_cost_hamiltonian tf st ef = Ok m)
  ↔ np_zeros_error (2 ^ length tf) (2 ^ length tf) = None ∧
    (length tf ≤ length st ∧ length tf ≤ length ef)%nat ∧
    ∀ i, (i < length tf)%nat → fits_float64 (nth i st 0 * nth i tf 0).
Proof.
  split.
  - intros [m Hm]. split; [| split].
    + unfold create_cost_hamiltonian, zeros in Hm.
      by destruct (np_zeros_error (2 ^ length tf) (2 ^ length tf)).
    + destruct (decide (length tf ≤ length st ∧ length tf ≤ length ef)%nat)
        as [? | Hshort]; [done |].
      pose proof (create_cost_hamiltonian_short tf st ef) as Hraise.
      rewrite Hm in Hraise. exfalso. apply Hraise. lia.
    + intros i Hi.
      destruct (decide (fits_float64 (nth i st 0 * nth i tf 0))) as [? | Hbig];
        [done |].
      pose proof (create_cost_hamiltonian_overflow tf st ef i Hi Hbig) as Hraise.
      by rewrite Hm in Hraise.
  - intros (Halloc & [Hst Hef] & Hfits).
    destruct (SignalFacts.create_cost_hamiltonian_represents tf st ef Halloc Hst Hef
                Hfits) as (m & Hrun & _).
    by exists m.
Qed.

(** X1. [create_cost_hamiltonian] returns a matrix exactly when the
    machine allocates the 2^n × 2^n array, [signal_timings] and
    [emergency_flags] are both at least as long as [traffic_flows], and
    each of the [n] products converts to a float; otherwise it raises,
    and what it raises is the exception of the allocation, [IndexError]
    or [OverflowError]. *)
Theorem create_cost_hamiltonian_returns_iff {M : Machine}
    (traffic_flows signal_timings : list Z) (emergency_flags : list bool) :
  ((∃ m, create_cost_hamiltonian traffic_flows signal_timings emergency_flags = Ok m)
   ↔ np_zeros_error (2 ^ length traffic_flows) (2 ^ length traffic_flows) = None ∧
     (length traffic_flows ≤ length signal_timings ∧
      length traffic_flows ≤ length emergency_flags)%nat ∧
     ∀ i, (i < length traffic_flows)%nat →
          fits_float64 (nth i signal_timings 0 * nth i traffic_flows 0)) ∧
  (∀ e, create_cost_hamiltonian traffic_flows signal_timings emergency_flags = Raise e →
        e = IndexError ∨ e = OverflowError ∨
        np_zeros_error (2 ^ length traffic_flows) (2 ^ length traffic_flows) = Some e).
Proof.
  split; [apply create_cost_hamiltonian_ok_iff |].
  intros e He.
  apply (fails_among_eq _ e _
           (create_cost_hamiltonian_fails_among traffic_flows signal_timings
              emergency_flags) He).
Qed.

(** X2. The outcome of [create_cost_hamiltonian] depends on
    [signal_timings] and [emergency_flags] only through their first
    [len(traffic_flows)] elements: two calls that agree there give the
    same outcome, whatever follows. *)
Theorem create_cost_hamiltonian_reads_prefix {M : Machine}
    (traffic_flows timings1 timings2 : list Z) (flags1 flags2 : list bool) :
  take (length traffic_flows) timings1 = take (length traffic_flows) timings2 →
  take (length traffic_flows) flags1 = take (length traffic_flows) flags2 →
  create_cost_hamiltonian traffic_flows timings1 flags1
  = create_cost_hamiltonian traffic_flows timings2 flags2.
Proof.
  intros Ht Hf.
  rewrite (create_cost_hamiltonian_take traffic_flows timings1 flags1).
  rewrite (create_cost_hamiltonian_take traffic_flows timings2 flags2).
  by rewrite Ht, Hf.
Qed.

Lemma create_cost_hamiltonian_reads_prefix_witness :
  create_cost_hamiltonian (M := workstation) [50; 40; 10] [30; 60; 20]
    [false; true; false]
  = create_cost_hamiltonian (M := workstation) [50; 40; 10] [30; 60; 20; 99; 7]
      [false; true; false; true].
Proof.
  apply (create_cost_hamiltonian_reads_prefix (M := workstation) [50; 40; 10]
           [30; 60; 20] [30; 60; 20; 99; 7] [false; true; false]
           [false; true; false; true]);
    reflexivity.
Defined.

(** X3. When it returns, the matrix is 2^n × 2^n and is zero away from
    the first [n] diagonal positions: every off-diagonal entry and every
    diagonal entry [(i, i)] with [i ≥ n] is [0.0]. *)
Theorem create_cost_hamiltonian_zero_elsewhere {M : Machine}
    (traffic_flows signal_timings : list Z) (emergency_flags : list bool) (m : matrix) :
  create_cost_hamiltonian traffic_flows signal_timings emergency_flags = Ok m →
  square (2 ^ length traffic_flows) m ∧
  ∀ i j : nat,
    (i < 2 ^ length traffic_flows)%nat → (j < 2 ^ length traffic_flows)%nat →
    i ≠ j ∨ (length traffic_flows ≤ i)%nat →
    ∃ x, entry m i j = Some x ∧ x = pzero ∧ denotes x 0.
Proof.
  intros Hrun.
  destruct (proj1 (create_cost_hamiltonian_ok_iff traffic_flows signal_timings
                     emergency_flags)) as (Halloc & [Hst Hef] & Hfits);
    [by exists m |].
  destruct (SignalFacts.create_cost_hamiltonian_represents traffic_flows
              signal_timings emergency_flags Halloc Hst Hef Hfits)
    as (m' & Hrun' & Hsq & Hm).
  rewrite Hrun in Hrun'. injection Hrun' as <-. split; [done |].
  intros i j Hi Hj Hij. rewrite (Hm i j Hi Hj).
  rewrite bool_decide_eq_false_2 by lia. by exists pzero.
Qed.

Lemma create_cost_hamiltonian_zero_elsewhere_witness :
  ∃ m, create_cost_hamiltonian (M := workstation) [50; 40; 10] [30; 60; 20]
         [false; true; false] = Ok m ∧
       square 8 m ∧
       ∀ i j : nat, (i < 8)%nat → (j < 8)%nat → i ≠ j ∨ (3 ≤ i)%nat →
         ∃ x, entry m i j = Some x ∧ x = pzero ∧ denotes x 0.
Proof.
  eexists. split; [vm_compute; reflexivity |].
  apply (create_cost_hamiltonian_zero_elsewhere (M := workstation) [50; 40; 10]
           [30; 60; 20] [false; true; false]).
  vm_compute. reflexivity.
Defined.

End SignalBounds.

(** ** The circuit as a whole *)

Module CircuitShape.

(** X4. On a machine that allocates the array, for vectors of one length
    [n > 0] whose products stay below [2^53 - 100] in magnitude,
    [qaoa_traffic_optimization] hands the simulator the circuit with one
    Hadamard per qubit, [p] equal layers of [RZ (theta i)] and
    [RX (pi / 2)] on each qubit [i], and the measurement, where [theta i]
    is the float of [signal_timings[i] * traffic_flows[i]], plus 100 when
    [emergency_flags[i]] is set; it returns what the simulator returns. *)
Theorem qaoa_traffic_optimization_circuit {M : Machine}
    (simulate : QuantumCircuit → counts)
    (traffic_flows signal_timings : list Z) (emergency_flags : list bool) (p : nat) :
  np_zeros_error (2 ^ length traffic_flows) (2 ^ length traffic_flows) = None →
  (0 < length traffic_flows)%nat →
  length signal_timings = length traffic_flows →
  length emergency_flags = length traffic_flows →
  (∀ (i : nat) (s f : Z),
     signal_timings !! i = Some s → traffic_flows !! i = Some f →
     Z.abs (s * f) + 100 < 2 ^ 53) →
  ∃ theta : nat → float64,
    (∀ (i : nat) (s f : Z) (flag : bool),
       signal_timings !! i = Some s →
       traffic_flows !! i = Some f →
       emergency_flags !! i = Some flag →
       theta i = float_of_Z (s * f + (if flag then 100 else 0))) ∧
    Signal.qaoa_traffic_optimization simulate traffic_flows signal_timings
      emergency_flags p
    = Ok (simulate
            (mkCircuit (length traffic_flows)
               (qaoa_instructions (length traffic_flows) p theta))).
Proof.
  intros Halloc Hn Hst Hef Hsmall.
  assert (Hnth : ∀ i, (i < length traffic_flows)%nat →
            Z.abs (nth i signal_timings 0 * nth i traffic_flows 0) + 100 < 2 ^ 53).
  { intros i Hi.
    destruct (lookup_lt_is_Some_2 signal_timings i) as [s Hs]; [lia |].
    destruct (lookup_lt_is_Some_2 traffic_flows i) as [f Hf]; [lia |].
    rewrite !nth_lookup, Hs, Hf. simpl. by apply (Hsmall i). }
  destruct (SignalFacts.create_cost_hamiltonian_represents traffic_flows
              signal_timings emergency_flags Halloc) as (m & Hrun & _ & Hm);
    [lia | lia | |].
  { intros i Hi. apply fits_float64_small. specialize (Hnth i Hi). lia. }
  exists (Signal.stored_cost traffic_flows signal_timings emergency_flags). split.
  - intros i s f flag Hs Hf Hflag.
    pose proof (lookup_lt_Some _ _ _ Hf) as Hi.
    rewrite SignalFacts.stored_cost_exact by by apply Hnth.
    unfold Signal.waiting_cost. by rewrite !nth_lookup, Hs, Hf, Hflag.
  - unfold Signal.qaoa_traffic_optimization, Signal.qaoa_traffic_circuit.
    rewrite Hrun. cbn [bind].
    rewrite (CircuitFacts.qaoa_circuit_shape _ p m
               (Signal.stored_cost traffic_flows signal_timings emergency_flags));
      [done | done |].
    intros i Hi. rewrite (Hm i i (lt_pow2 _ _ Hi) (lt_pow2 _ _ Hi)).
    by rewrite bool_decide_eq_true_2.
Qed.

Lemma qaoa_traffic_optimization_circuit_witness :
  ∃ theta : nat → float64,
    (∀ (i : nat) (s f : Z) (flag : bool),
       [30; 60; 20] !! i = Some s →
       [50; 40; 10] !! i = Some f →
       [false; true; false] !! i = Some flag →
       theta i = float_of_Z (s * f + (if flag then 100 else 0))) ∧
    Signal.qaoa_traffic_optimization (M := workstation)
      (λ qc, [("000"%string, Z.of_nat (length (data qc)))])
      [50; 40; 10] [30; 60; 20] [false; true; false] 1
    = Ok [("000"%string, Z.of_nat (length (qaoa_instructions 3 1 theta)))].
Proof.
  apply (qaoa_traffic_optimization_circuit (M := workstation)
           (λ qc, [("000"%string, Z.of_nat (length (data qc)))])
           [50; 40; 10] [30; 60; 20] [false; true; false] 1);
    [reflexivity | simpl; lia | reflexivity | reflexivity |].
  intros [|[|[|i]]] s f Hs Hf; simplify_eq/=; lia.
Defined.

End CircuitShape.

(** ** path-rerouting-solver.py: more on the travel time *)

Module TravelTime.
Import Path.

(** A speed of the integers below 2^53 that is not zero gives a speed per
    minute that is not zero. *)
Lemma speed_per_minute_not_zero (s : Z) :
  s ≠ 0 → Z.abs s < 2 ^ 53 → is_zero (f64_div (float_of_Z s) sixty) = false.
Proof.
  intros Hs Hlt. rewrite float_of_Z_small by done. unfold finite_of_pos.
  assert (Hc : Zpos (Z.to_pos (Z.abs s)) < 2 ^ 53) by lia.
  pose proof (digits_below_2_53 _ Hc) as Hd.
  change sixty with (S754_finite false 8444249301319680 (-47)).
  destruct (f64_div_normal (s <? 0) false (canonical_mantissa_of (Z.to_pos (Z.abs s)))
              8444249301319680 (-47) (canonical_mantissa_digits _ Hc))
    as (m & n & _ & Hdiv).
  destruct (Hdiv (Zpos (digits2_pos (Z.to_pos (Z.abs s))) - 53)) as [-> _].
  { change (Zpos (digits2_pos 8444249301319680)) with 53. lia. }
  unfold rounded. by destruct (_ <=? _).
Qed.

(** X5. For an [int] distance and an [int] speed below 2^53 in magnitude,
    [calculate_travel_time] raises [ZeroDivisionError] exactly when the
    speed is zero, and returns a time exactly when it is not. *)
Theorem calculate_travel_time_zero_speed (d s : Z) :
  Z.abs d < 2 ^ 53 → Z.abs s < 2 ^ 53 →
  (calculate_travel_time (Int d) (Int s) = Raise ZeroDivisionError ↔ s = 0) ∧
  ((∃ t, calculate_travel_time (Int d) (Int s) = Ok t) ↔ s ≠ 0).
Proof.
  intros Hd Hs. unfold calculate_travel_time.
  rewrite !as_float_Int by by apply fits_float64_small. cbn [bind].
  destruct (decide (s = 0)) as [-> | Hs0].
  - change (is_zero (f64_div (float_of_Z 0) sixty)) with true.
    split; split; try done. by intros [t ?].
  - rewrite speed_per_minute_not_zero by done.
    split; split; try done. intros _. by eexists.
Qed.

Lemma calculate_travel_time_zero_speed_witness :
  (calculate_travel_time (Int 2) (Int 0) = Raise ZeroDivisionError ↔ 0 = 0) ∧
  ((∃ t, calculate_travel_time (Int 2) (Int 0) = Ok t) ↔ 0 ≠ 0).
Proof. apply (calculate_travel_time_zero_speed 2 0); simpl; lia. Defined.

(** X6. On the distance table at the fixed vehicle speed the travel time
    is exact: [calculate_travel_time(distances[i][j], vehicle_speed)]
    returns the float whose value is [distances[i][j] / (40 / 60)], that
    is 0, 1.5 or 3 minutes, with no rounding error. *)
Theorem calculate_travel_time_of_table (i j : nat) :
  (i < 3)%nat → (j < 3)%nat →
  ∃ t, calculate_travel_time (Int (nth j (nth i distances []) 0))
         (Int vehicle_speed) = Ok t ∧
       denotes t (inject_Z (nth j (nth i distances []) 0%Z) / (inject_Z 40 / 60))%Q.
Proof.
  intros Hi Hj. rewrite PathFacts.travel_time_of_table. eexists. split; [done |].
  do 3 (destruct i as [|i];
        [do 3 (destruct j as [|j]; [vm_compute; reflexivity |]); lia |]).
  lia.
Qed.

Lemma calculate_travel_time_of_table_witness :
  ∃ t, calculate_travel_time (Int 2) (Int vehicle_speed) = Ok t ∧
       denotes t (inject_Z 2 / (inject_Z 40 / 60))%Q.
Proof. apply (calculate_travel_time_of_table 0 2); lia. Defined.

End TravelTime.

(** ** path-rerouting-solver.py: bounds of the cost matrix construction *)

Module PathBounds.
Import Path.

Lemma start_step_other (start : Z) tf st (n : nat) (t : matrix) (i : nat) :
  Z.of_nat i ≠ start → start_step start tf st n t i = Ok t.
Proof. intros Hi. unfold start_step. by rewrite bool_decide_eq_false_2. Qed.

(** Only the entries of the two vectors at the start node are read. *)
Lemma create_path_cost_hamiltonian_agree {M : Machine} (start end1 end2 : Z)
    (tf1 tf2 st1 st2 : list Z) (ef1 ef2 : list bool) :
  length tf1 = length tf2 →
  (∀ i : nat, Z.of_nat i = start →
     tf1 !! i = tf2 !! i ∧ st1 !! i = st2 !! i) →
  create_path_cost_hamiltonian start end1 tf1 st1 ef1
  = create_path_cost_hamiltonian start end2 tf2 st2 ef2.
Proof.
  intros Hlen Hagree. unfold create_path_cost_hamiltonian. rewrite <- Hlen.
  destruct (zeros (2 ^ length tf1) (2 ^ length tf1)) as [m0 | e]; [| done].
  cbn [bind]. apply for_each_ext. intros i t _. unfold start_step.
  case_bool_decide as Hi; [| done].
  destruct (Hagree i Hi) as [Htf Hst]. unfold getitem. by rewrite Htf, Hst.
Qed.

Lemma create_path_cost_hamiltonian_zero_outside {M : Machine} (start end_node : Z)
    (tf st : list Z) (ef : list bool) :
  start < 0 ∨ Z.of_nat (length tf) ≤ start →
  create_path_cost_hamiltonian start end_node tf st ef
  = zeros (2 ^ length tf) (2 ^ length tf).
Proof.
  intros Hstart. unfold create_path_cost_hamiltonian.
  destruct (zeros (2 ^ length tf) (2 ^ length tf)) as [m0 | e]; [| done].
  cbn [bind]. apply for_each_skip.
  intros i Hi. apply elem_of_seq in Hi. apply start_step_other. lia.
Qed.

(** X7. With a start node outside [0, n) (negative, or [n] and above)
    [create_path_cost_hamiltonian] returns what [np.zeros] gives it, the
    2^n × 2^n zero matrix, or raises what [np.zeros] raises, whatever the
    vectors hold and however long they are. *)
Theorem create_path_cost_hamiltonian_start_outside {M : Machine} (start end_node : Z)
    (traffic_flows signal_timings : list Z) (emergency_flags : list bool) :
  start < 0 ∨ Z.of_nat (length traffic_flows) ≤ start →
  create_path_cost_hamiltonian start end_node traffic_flows signal_timings
    emergency_flags
  = zeros (2 ^ length traffic_flows) (2 ^ length traffic_flows).
Proof. apply create_path_cost_hamiltonian_zero_outside. Qed.

Lemma create_path_cost_hamiltonian_start_outside_witness :
  create_path_cost_hamiltonian (M := workstation) 7 2 [1; 0; 0; 4; 5] [30] []
  = zeros (M := workstation) 32 32.
Proof.
  apply (create_path_cost_hamiltonian_start_outside (M := workstation) 7 2
           [1; 0; 0; 4; 5] [30] []).
  simpl. lia.
Defined.

Lemma create_path_cost_hamiltonian_returns_iff_start_inside {M : Machine}
    (start end_node : Z) (traffic_flows signal_timings : list Z)
    (emergency_flags : list bool) :
  0 ≤ start < Z.of_nat (length traffic_flows) →
  (∃ m, create_path_cost_hamiltonian start end_node traffic_flows signal_timings
          emergency_flags = Ok m)
  ↔ np_zeros_error (2 ^ length traffic_flows) (2 ^ length traffic_flows) = None ∧
    (length traffic_flows ≤ 3)%nat ∧ start < Z.of_nat (length signal_timings) ∧
    fits_float64 (nth (Z.to_nat start) signal_timings 0
                  * nth (Z.to_nat start) traffic_flows 0).
Proof.
  intros Hstart. set (n := length traffic_flows) in *. split.
  - intros [m Hm]. split; [| split; [| split]].
    + unfold create_path_cost_hamiltonian, zeros in Hm. fold n in Hm.
      by destruct (np_zeros_error (2 ^ n) (2 ^ n)).
    + destruct (decide (n ≤ 3)%nat) as [? | Hn]; [done |].
      pose proof (PathFacts.create_path_cost_hamiltonian_beyond_table start end_node
                    traffic_flows signal_timings emergency_flags) as Hraise.
      rewrite Hm in Hraise. exfalso. apply Hraise; [fold n; lia | done].
    + destruct (decide (start < Z.of_nat (length signal_timings))) as [? | Hst];
        [done |].
      assert (Hraise : raises (create_path_cost_hamiltonian start end_node
                                 traffic_flows signal_timings emergency_flags)).
      { unfold create_path_cost_hamiltonian. apply raises_bind. intros m0.
        apply (for_each_raises _ _ (Z.to_nat start)).
        { apply elem_of_seq. fold n. lia. }
        intros t. unfold start_step. rewrite bool_decide_eq_true_2 by lia.
        unfold getitem at 1. by rewrite (lookup_ge_None_2 signal_timings) by lia. }
      by rewrite Hm in Hraise.
    + destruct (decide (fits_float64 (nth (Z.to_nat start) signal_timings 0
                                      * nth (Z.to_nat start) traffic_flows 0)))
        as [? | Hbig]; [done |].
      assert (Hraise : raises (create_path_cost_hamiltonian start end_node
                                 traffic_flows signal_timings emergency_flags)).
      { unfold create_path_cost_hamiltonian. apply raises_bind. intros m0.
        apply (for_each_raises _ _ (Z.to_nat start)).
        { apply elem_of_seq. fold n. lia. }
        intros t. unfold start_step. rewrite bool_decide_eq_true_2 by lia.
        destruct (decide (Z.to_nat start < length signal_timings)%nat) as [Hst | Hst].
        - rewrite (getitem_nth signal_timings _ 0) by done. cbn [bind].
          rewrite (getitem_nth traffic_flows _ 0) by (fold n; lia). cbn [bind].
          by apply raises_bind_l, iadd_overflow.
        - unfold getitem at 1. by rewrite (lookup_ge_None_2 signal_timings) by lia. }
      by rewrite Hm in Hraise.
  - intros (Halloc & Hn & Hst & Hfits).
    destruct (PathFacts.create_path_cost_hamiltonian_represents start end_node
                traffic_flows signal_timings emergency_flags Halloc) as (m & Hm & _);
      [done |].
    by exists m.
Qed.

(** X8. For a start node in [0, n), [create_path_cost_hamiltonian]
    returns a matrix exactly when the machine allocates the 2^n × 2^n
    array, [n ≤ 3] (the distance table covers the intersections),
    [signal_timings] reaches the start node and the waiting time at the
    start node converts to a float. *)
Theorem create_path_cost_hamiltonian_returns_iff {M : Machine} (start end_node : Z)
    (traffic_flows signal_timings : list Z) (emergency_flags : list bool) :
  0 ≤ start < Z.of_nat (length traffic_flows) →
  (∃ m, create_path_cost_hamiltonian start end_node traffic_flows signal_timings
          emergency_flags = Ok m)
  ↔ np_zeros_error (2 ^ length traffic_flows) (2 ^ length traffic_flows) = None ∧
    (length traffic_flows ≤ 3)%nat ∧ start < Z.of_nat (length signal_timings) ∧
    fits_float64 (nth (Z.to_nat start) signal_timings 0
                  * nth (Z.to_nat start) traffic_flows 0).
Proof. apply create_path_cost_hamiltonian_returns_iff_start_inside. Qed.

Lemma create_path_cost_hamiltonian_returns_iff_witness :
  (∃ m, create_path_cost_hamiltonian (M := workstation) 0 2 [1; 0; 0] [30] [] = Ok m)
  ↔ np_zeros_error (Machine := workstation) (2 ^ length [1; 0; 0])
      (2 ^ length [1; 0; 0]) = None ∧
    (length [1; 0; 0] ≤ 3)%nat ∧ 0 < Z.of_nat (length [30]) ∧
    fits_float64 (nth (Z.to_nat 0) [30] 0 * nth (Z.to_nat 0) [1; 0; 0] 0).
Proof.
  apply (create_path_cost_hamiltonian_returns_iff (M := workstation) 0 2 [1; 0; 0]
           [30] []).
  simpl. lia.
Defined.

Lemma create_path_cost_hamiltonian_fails_among {M : Machine} (start end_node : Z)
    (tf st : list Z) (ef : list bool) :
  fails_among
    (λ e, e = IndexError ∨ e = OverflowError ∨
          np_zeros_error (2 ^ length tf) (2 ^ length tf) = Some e)
    (create_path_cost_hamiltonian start end_node tf st ef).
Proof.
  unfold create_path_cost_hamiltonian, zeros.
  destruct (np_zeros_error (2 ^ length tf) (2 ^ length tf)) as [e |];
    cbn [bind fails_among]; [auto |].
  eapply fails_among_mono;
    [| apply for_each_fails_among; intros t i; apply PathFacts.start_step_fails_among].
  intros e [-> | ->]; auto.
Qed.

(** X9. Whatever its arguments, what [create_path_cost_hamiltonian]
    raises is the exception of the allocation, [IndexError] or
    [OverflowError]; the division by the speed per minute never fails. *)
Theorem create_path_cost_hamiltonian_exceptions {M : Machine} (start end_node : Z)
    (traffic_flows signal_timings : list Z) (emergency_flags : list bool) (e : exn) :
  create_path_cost_hamiltonian start end_node traffic_flows signal_timings
    emergency_flags = Raise e →
  e = IndexError ∨ e = OverflowError ∨
  np_zeros_error (2 ^ length traffic_flows) (2 ^ length traffic_flows) = Some e.
Proof.
  intros He.
  apply (fails_among_eq _ e _
           (create_path_cost_hamiltonian_fails_among start end_node traffic_flows
              signal_timings emergency_flags) He).
Qed.

Lemma create_path_cost_hamiltonian_exceptions_witness :
  create_path_cost_hamiltonian (M := workstation) 0 0 [1] [10 ^ 400] []
  = Raise OverflowError ∧
  (OverflowError = IndexError ∨ OverflowError = OverflowError ∨
   np_zeros_error (Machine := workstation) (2 ^ length [1]) (2 ^ length [1])
   = Some OverflowError).
Proof.
  assert (Hrun : create_path_cost_hamiltonian (M := workstation) 0 0 [1] [10 ^ 400] []
                 = Raise OverflowError) by (vm_compute; reflexivity).
  split; [exact Hrun |].
  exact (create_path_cost_hamiltonian_exceptions (M := workstation) 0 0 [1]
           [10 ^ 400] [] OverflowError Hrun).
Defined.

(** X10. The outcome of [create_path_cost_hamiltonian] depends on the two
    vectors only through their length and their entries at the start
    node: calls that agree on the start node, on [len(traffic_flows)] and
    on [traffic_flows[start]] and [signal_timings[start]] give the same
    outcome. *)
Theorem create_path_cost_hamiltonian_reads_start_only {M : Machine}
    (start end1 end2 : Z)
    (flows1 flows2 timings1 timings2 : list Z) (flags1 flags2 : list bool) :
  length flows1 = length flows2 →
  (∀ i : nat, Z.of_nat i = start →
     flows1 !! i = flows2 !! i ∧ timings1 !! i = timings2 !! i) →
  create_path_cost_hamiltonian start end1 flows1 timings1 flags1
  = create_path_cost_hamiltonian start end2 flows2 timings2 flags2.
Proof. apply create_path_cost_hamiltonian_agree. Qed.

Lemma create_path_cost_hamiltonian_reads_start_only_witness :
  create_path_cost_hamiltonian (M := workstation) 0 2 [1; 0; 0] [30; 60; 20]
    [false; true; false]
  = create_path_cost_hamiltonian (M := workstation) 0 1 [1; 5; 7] [30; 1; 2; 3] [].
Proof.
  apply (create_path_cost_hamiltonian_reads_start_only (M := workstation) 0 2 1
           [1; 0; 0] [1; 5; 7] [30; 60; 20] [30; 1; 2; 3] [false; true; false] []).
  - reflexivity.
  - intros i Hi. assert (i = 0%nat) as -> by lia. done.
Defined.

End PathBounds.

(** ** path-rerouting-solver.py: the circuit *)

Module PathCircuit.
Import Path.

(** X11. On a machine that allocates the array, for [n > 0]
    intersections (and, if the start node is among them, [n ≤ 3],
    [signal_timings] reaching it and a waiting time below 2^53 in
    magnitude), [qaoa_path_optimization] hands the simulator the circuit
    whose phase angle is the float of
    [signal_timings[start] * traffic_flows[start]] on the start qubit and
    [0.0] on every other qubit: the travel times of the matrix and the
    distance table do not reach the circuit. *)
Theorem qaoa_path_optimization_circuit {M : Machine}
    (simulate : QuantumCircuit → counts)
    (start end_node : Z) (traffic_flows signal_timings : list Z)
    (emergency_flags : list bool) (p : nat) :
  np_zeros_error (2 ^ length traffic_flows) (2 ^ length traffic_flows) = None →
  (0 < length traffic_flows)%nat →
  (0 ≤ start < Z.of_nat (length traffic_flows) →
   (length traffic_flows ≤ 3)%nat ∧ start < Z.of_nat (length signal_timings) ∧
   Z.abs (nth (Z.to_nat start) signal_timings 0
          * nth (Z.to_nat start) traffic_flows 0) < 2 ^ 53) →
  ∃ theta : nat → float64,
    (∀ i : nat, (i < length traffic_flows)%nat →
       theta i =
       if bool_decide (Z.of_nat i = start)
       then float_of_Z (nth i signal_timings 0 * nth i traffic_flows 0)
       else pzero) ∧
    qaoa_path_optimization simulate start end_node traffic_flows signal_timings
      emergency_flags p
    = Ok (simulate
            (mkCircuit (length traffic_flows)
               (qaoa_instructions (length traffic_flows) p theta))).
Proof.
  intros Halloc Hn Hin. set (n := length traffic_flows) in *.
  destruct (PathFacts.create_path_cost_hamiltonian_represents start end_node
              traffic_flows signal_timings emergency_flags Halloc)
    as (m & Hrun & _ & Hm).
  { intros Hs. destruct (Hin Hs) as (? & ? & ?).
    split; [done |]. split; [done |]. by apply fits_float64_small. }
  fold n in Hm.
  exists (λ i, if bool_decide (Z.of_nat i = start)
               then float_of_Z (nth i signal_timings 0 * nth i traffic_flows 0)
               else pzero).
  split; [done |].
  unfold qaoa_path_optimization, qaoa_path_circuit. rewrite Hrun. cbn [bind]. fold n.
  rewrite (CircuitFacts.qaoa_circuit_shape n p m
             (λ i, if bool_decide (Z.of_nat i = start)
                   then float_of_Z (nth i signal_timings 0 * nth i traffic_flows 0)
                   else pzero)); [done | done |].
  intros i Hi. rewrite (Hm i i (lt_pow2 _ _ Hi) (lt_pow2 _ _ Hi)).
  unfold start_row. repeat case_bool_decide; try (exfalso; lia); try reflexivity.
  destruct Hin as (_ & _ & Hsmall); [lia |].
  assert (Z.to_nat start = i) as Hsi by lia. rewrite Hsi in Hsmall.
  by rewrite f64_add_pzero_l.
Qed.

Lemma qaoa_path_optimization_circuit_witness :
  ∃ theta : nat → float64,
    (∀ i : nat, (i < 3)%nat →
       theta i =
       if bool_decide (Z.of_nat i = 0)
       then float_of_Z (nth i [30; 60; 20] 0 * nth i [1; 0; 0] 0)
       else pzero) ∧
    qaoa_path_optimization (M := workstation)
      (λ qc, [("101"%string, Z.of_nat (length (data qc)))])
      0 2 [1; 0; 0] [30; 60; 20] [false; true; false] 1
    = Ok [("101"%string,
           Z.of_nat (length (qaoa_instructions 3 1 theta)))].
Proof.
  apply (qaoa_path_optimization_circuit (M := workstation)
           (λ qc, [("101"%string, Z.of_nat (length (data qc)))])
           0 2 [1; 0; 0] [30; 60; 20] [false; true; false] 1);
    [reflexivity | simpl; lia | simpl; lia].
Defined.

End PathCircuit.

(** ** The circuit construction: when it succeeds and what it builds *)

Module CircuitBounds.

Lemma rotation_step_fails_only (c : matrix) (qc : QuantumCircuit) (i : nat) :
  fails_only IndexError (rotation_step c qc i).
Proof.
  unfold rotation_step.
  apply fails_only_bind; [apply getitem_fails_only |]. intros row.
  apply fails_only_bind; [apply getitem_fails_only | done].
Qed.

Lemma rotation_step_missing (c : matrix) (qc : QuantumCircuit) (i : nat) :
  entry c i i = None → raises (rotation_step c qc i).
Proof.
  unfold entry, rotation_step, getitem. intros Hc.
  destruct (c !! i) as [row |]; [| done]. simpl. by rewrite Hc.
Qed.

Lemma qaoa_circuit_no_layers (n : nat) (c : matrix) (theta : nat → float64) :
  (0 < n)%nat →
  qaoa_circuit n c 0 = Ok (mkCircuit n (qaoa_instructions n 0 theta)).
Proof.
  intros Hn. unfold qaoa_circuit, qaoa_instructions.
  rewrite CircuitFacts.h_range by done. cbn [bind range seq for_each].
  rewrite CircuitFacts.measure_all_data.
  unfold new_circuit. cbn [num_qubits data]. by rewrite app_nil_l.
Qed.

Lemma qaoa_circuit_missing (n p : nat) (c : matrix) (i : nat) :
  (i < n)%nat → entry c i i = None → raises (qaoa_circuit n c (S p)).
Proof.
  intros Hi Hc. unfold qaoa_circuit. apply raises_bind. intros qc0.
  apply raises_bind_l.
  apply (for_each_raises _ _ 0%nat); [apply elem_of_seq; lia |].
  intros qc. apply (for_each_raises _ _ i); [apply elem_of_seq; lia |].
  intros qc'. by apply rotation_step_missing.
Qed.

(** What a successful construction has built. *)
Lemma qaoa_circuit_ok_inv (n p : nat) (c : matrix) (qc : QuantumCircuit) :
  qaoa_circuit n c p = Ok qc →
  (0 < n)%nat ∧
  (p = 0%nat ∨ ∀ i, (i < n)%nat → is_Some (entry c i i)) ∧
  ∃ theta, qc = mkCircuit n (qaoa_instructions n p theta).
Proof.
  intros Hrun.
  assert (Hn : (0 < n)%nat).
  { destruct n as [|n]; [| lia]. by rewrite CircuitFacts.qaoa_circuit_no_qubit in Hrun. }
  split; [done |].
  destruct (decide (Forall (λ i, is_Some (entry c i i)) (range n))) as [Hall | Hsome].
  - assert (Hd : ∀ i, (i < n)%nat → is_Some (entry c i i)).
    { intros i Hi. apply (proj1 (Forall_forall _ _) Hall), elem_of_seq. lia. }
    split; [by right |]. exists (λ i, default pzero (entry c i i)).
    rewrite (CircuitFacts.qaoa_circuit_shape n p c
               (λ i, default pzero (entry c i i))) in Hrun.
    + by injection Hrun.
    + done.
    + intros i Hi. by destruct (Hd i Hi) as [x ->].
  - apply not_Forall_Exists in Hsome; [| apply _].
    apply Exists_exists in Hsome as (i & Hi & Hnone). apply elem_of_seq in Hi.
    simpl in Hnone. destruct (entry c i i) eqn:Hc.
    { exfalso. apply Hnone. by eexists. }
    destruct p as [|p].
    + split; [by left |]. exists (λ _, pzero).
      rewrite (qaoa_circuit_no_layers n c (λ _, pzero)) in Hrun by done.
      by injection Hrun.
    + pose proof (qaoa_circuit_missing n p c i) as Hraise.
      rewrite Hrun in Hraise. exfalso. apply Hraise; [lia | done].
Qed.

(** X12. The circuit construction succeeds exactly when there is a qubit
    and either there are no layers ([p = 0]: the matrix is not read at
    all) or the matrix has the diagonal entries [(i, i)] for all [i < n];
    when it fails, it is with the [CircuitError] of the Hadamard call on
    no qubits or with [IndexError]. *)
Theorem qaoa_circuit_returns_iff (n p : nat) (c : matrix) :
  ((∃ qc, qaoa_circuit n c p = Ok qc)
   ↔ (0 < n)%nat ∧ (p = 0%nat ∨ ∀ i, (i < n)%nat → is_Some (entry c i i))) ∧
  (∀ e, qaoa_circuit n c p = Raise e → e = IndexError ∨ e = CircuitError) ∧
  (n = 0%nat → qaoa_circuit n c p = Raise CircuitError).
Proof.
  split; [split | split].
  - intros [qc Hqc]. apply qaoa_circuit_ok_inv in Hqc as (? & ? & _). done.
  - intros [Hn [-> | Hd]].
    + eexists. by apply (qaoa_circuit_no_layers n c (λ _, pzero)).
    + eexists. apply (CircuitFacts.qaoa_circuit_shape n p c
                        (λ i, default pzero (entry c i i))); [done |].
      intros i Hi. by destruct (Hd i Hi) as [x ->].
  - intros e. unfold qaoa_circuit, h.
    destruct (range n) as [|q qs] eqn:Hrange; cbn [bind].
    { intros [= <-]. by right. }
    intros He. left. revert He. apply fails_only_eq.
    apply fails_only_bind; [| done].
    apply for_each_fails_only. intros qc _.
    apply for_each_fails_only. intros qc' i. apply rotation_step_fails_only.
  - intros ->. apply CircuitFacts.qaoa_circuit_no_qubit.
Qed.

Lemma length_layer (theta : nat → float64) (qubits : list nat) :
  length (layer theta qubits) = (2 * length qubits)%nat.
Proof.
  unfold layer. induction qubits as [|q qs IH]; [done |].
  change (length (RZ (Theta (theta q)) q :: RX HalfPi q ::
            (qs ≫= λ i, [RZ (Theta (theta i)) i; RX HalfPi i]))
          = (2 * S (length qs))%nat).
  cbn [length]. rewrite IH. lia.
Qed.

Lemma length_mjoin_replicate {A : Type} (k : nat) (l : list A) :
  length (mjoin (replicate k l)) = (k * length l)%nat.
Proof.
  induction k as [|k IH]; [done |]. simpl. rewrite length_app, IH. lia.
Qed.

Lemma layer_in_range (n : nat) (theta : nat → float64) (qubits : list nat) :
  Forall (λ q, q < n)%nat qubits → Forall (qubit_in_range n) (layer theta qubits).
Proof.
  unfold layer. induction 1 as [|q qs Hq _ IH]; [constructor |].
  simpl. by repeat constructor.
Qed.

Lemma range_below (n : nat) : Forall (λ q, q < n)%nat (range n).
Proof. apply Forall_forall. intros q Hq. apply elem_of_seq in Hq. lia. Qed.

(** X13. A circuit that [qaoa_circuit] returns has [n] qubits and
    [2n + 2np + 1] instructions ([n] Hadamards, [p] layers of [2n]
    rotations, a barrier, [n] measurements), each on a qubit below [n]. *)
Theorem qaoa_circuit_well_formed (n p : nat) (c : matrix) (qc : QuantumCircuit) :
  qaoa_circuit n c p = Ok qc →
  num_qubits qc = n ∧
  length (data qc) = (2 * n + 2 * n * p + 1)%nat ∧
  Forall (qubit_in_range n) (data qc).
Proof.
  intros Hrun. apply qaoa_circuit_ok_inv in Hrun as (_ & _ & [theta ->]).
  cbn [num_qubits data]. unfold qaoa_instructions.
  pose proof (range_below n) as Hrange. split; [done |]. split.
  - rewrite !length_app, length_fmap, length_mjoin_replicate, length_layer.
    simpl. rewrite length_fmap. unfold range. rewrite length_seq. lia.
  - apply Forall_app. split; [| apply Forall_app; split].
    + apply Forall_fmap. eapply Forall_impl; [exact Hrange | done].
    + induction p as [|p IH]; [constructor |]. simpl.
      apply Forall_app. split; [by apply layer_in_range | done].
    + constructor; [done |]. apply Forall_fmap.
      eapply Forall_impl; [exact Hrange |]. by intros q Hq.
Qed.

Lemma qaoa_circuit_well_formed_witness :
  ∃ qc, qaoa_circuit 2 [[float_of_Z 30; Path.travel_minutes 0 1]; [pzero; pzero]] 3
        = Ok qc ∧
        num_qubits qc = 2%nat ∧
        length (data qc) = (2 * 2 + 2 * 2 * 3 + 1)%nat ∧
        Forall (qubit_in_range 2) (data qc).
Proof.
  eexists. split; [vm_compute; reflexivity |].
  apply (qaoa_circuit_well_formed 2 3
           [[float_of_Z 30; Path.travel_minutes 0 1]; [pzero; pzero]]).
  vm_compute. reflexivity.
Defined.

End CircuitBounds.
(** ** Decoding: composition, errors, losslessness *)

Lemma list_ascii_of_string_app (s1 s2 : string) :
  list_ascii_of_string (s1 +:+ s2)
  = list_ascii_of_string s1 ++ list_ascii_of_string s2.
Proof.
  induction s1 as [|a s1 IH]; [done |].
  change (a :: list_ascii_of_string (s1 +:+ s2)
          = a :: (list_ascii_of_string s1 ++ list_ascii_of_string s2)).
  by rewrite IH.
Qed.

Lemma list_ascii_of_string_inj (s1 s2 : string) :
  list_ascii_of_string s1 = list_ascii_of_string s2 → s1 = s2.
Proof.
  intros Heq. rewrite <- (string_of_list_ascii_of_string s1).
  rewrite <- (string_of_list_ascii_of_string s2). by rewrite Heq.
Qed.

Lemma filter_fmap {A B : Type} (f : A → B) (P : B → Prop)
    `{!∀ y, Decision (P y)} (l : list A) :
  filter P (f <$> l) = f <$> filter (λ x, P (f x)) l.
Proof.
  induction l as [|x l IH]; [done |].
  rewrite fmap_cons, !filter_cons, IH. by destruct (decide (P (f x))).
Qed.

Lemma filter_none {A : Type} (P : A → Prop) `{!∀ x, Decision (P x)} (l : list A) :
  (∀ x, x ∈ l → ¬ P x) → filter P l = [].
Proof.
  induction l as [|x l IH]; intros Hno; [done |].
  rewrite filter_cons_False by (apply Hno; by left).
  apply IH. intros y Hy. apply Hno. by right.
Qed.

(** Positions beyond the support of [P] do not matter to the filter. *)
Lemma filter_seq_support (P : nat → Prop) `{!∀ i, Decision (P i)} (a k : nat) :
  (∀ i, P i → (i < a)%nat) →
  filter P (seq 0 (a + k)) = filter P (seq 0 a).
Proof.
  intros Hsupp. rewrite seq_app, filter_app. simpl.
  rewrite (filter_none P (seq a k)); [by rewrite app_nil_r |].
  intros i Hi HP. apply elem_of_seq in Hi. apply Hsupp in HP. lia.
Qed.

Lemma filter_seq_same_support (P1 P2 : nat → Prop)
    `{!∀ i, Decision (P1 i), !∀ i, Decision (P2 i)} (a b : nat) :
  (∀ i, P1 i ↔ P2 i) → (∀ i, P1 i → (i < a)%nat) → (∀ i, P2 i → (i < b)%nat) →
  filter P1 (seq 0 a) = filter P2 (seq 0 b).
Proof.
  intros Hiff Hs1 Hs2.
  assert (Hboth : ∀ i, P1 i → (i < a `min` b)%nat).
  { intros i Hi. pose proof (Hs1 i Hi). pose proof (Hs2 i (proj1 (Hiff i) Hi)). lia. }
  replace a with (a `min` b + (a - a `min` b))%nat at 1 by lia.
  replace b with (a `min` b + (b - a `min` b))%nat at 3 by lia.
  rewrite (filter_seq_support P1) by done.
  rewrite (filter_seq_support P2) by (intros i Hi; by apply Hboth, Hiff).
  by apply list_filter_iff.
Qed.

Module DecodeMore.
Import Signal Path DecodeFacts.

(** The accumulator is only prepended to what the loop appends. *)
Lemma decode_loop_acc (bits : list ascii) (acc : list Z) :
  for_each decode_step bits acc
  = let* l := for_each decode_step bits [] in Ok (acc ++ l).
Proof.
  revert acc. induction bits as [|c bits IH]; intros acc; simpl.
  - by rewrite app_nil_r.
  - unfold decode_step at 1 3. destruct (signal_timings !! c) as [t |]; [| done].
    cbn [bind]. rewrite (IH (acc ++ [t])), (IH ([] ++ [t])).
    destruct (for_each decode_step bits []) as [l | e]; [| done].
    cbn [bind]. by rewrite <- app_assoc.
Qed.

(** X14. Decoding a concatenation is decoding the two parts in turn and
    concatenating the results; an exception of the first part, otherwise
    of the second, is the exception of the whole. *)
Theorem decode_signals_app (s1 s2 : string) :
  decode_signals (s1 +:+ s2)
  = let* l1 := decode_signals s1 in
    let* l2 := decode_signals s2 in
    Ok (l1 ++ l2).
Proof.
  unfold decode_signals. rewrite list_ascii_of_string_app, for_each_app.
  destruct (for_each decode_step (list_ascii_of_string s1) []) as [l1 | e];
    [| done].
  cbn [bind]. apply decode_loop_acc.
Qed.

(** X15. The [ValueError] names the first character that is not '0', '1'
    or '2': after a prefix of accepted characters the message quotes the
    next character, whatever follows it. *)
Theorem decode_signals_first_unexpected (accepted : string) (c : ascii)
    (rest : string) :
  Forall timing_bit (list_ascii_of_string accepted) →
  ¬ timing_bit c →
  decode_signals (accepted +:+ String c rest)
  = Raise (ValueError ("Unexpected bit '" +:+ String c "' in binary string.")).
Proof.
  intros Hacc Hc. unfold decode_signals.
  rewrite list_ascii_of_string_app, for_each_app, decode_loop_ok by done.
  cbn [bind]. simpl. unfold decode_step at 1.
  by rewrite (signal_timings_lookup_other c Hc).
Qed.

Lemma decode_signals_first_unexpected_witness :
  decode_signals ("01" +:+ String "3" "x2")
  = Raise (ValueError "Unexpected bit '3' in binary string.").
Proof.
  apply (decode_signals_first_unexpected "01" "3" "x2").
  - repeat constructor; unfold timing_bit; tauto.
  - unfold timing_bit. intros [H | [H | H]]; discriminate.
Defined.

Lemma decode_loop_binary (bits : list ascii) :
  Forall binary_bit bits →
  for_each decode_step bits []
  = Ok ((λ c, if Ascii.eqb c "1" then 30 else 20) <$> bits).
Proof.
  intros Hbits. rewrite decode_loop_ok.
  - rewrite app_nil_l. f_equal. apply list_fmap_ext.
    intros i c Hc. apply (proj1 (Forall_lookup _ _) Hbits) in Hc.
    by destruct Hc as [-> | ->].
  - eapply Forall_impl; [exact Hbits |]. unfold binary_bit, timing_bit. tauto.
Qed.

Lemma timing_of_inj (c1 c2 : ascii) :
  timing_bit c1 → timing_bit c2 → timing_of c1 = timing_of c2 → c1 = c2.
Proof.
  intros [-> | [-> | ->]] [-> | [-> | ->]]; vm_compute; congruence.
Qed.

Lemma decode_signals_ok_inv (s : string) (l : list Z) :
  decode_signals s = Ok l →
  Forall timing_bit (list_ascii_of_string s) ∧
  l = timing_of <$> list_ascii_of_string s.
Proof.
  unfold decode_signals. intros Hrun.
  destruct (decide (Forall timing_bit (list_ascii_of_string s))) as [Hall | Hsome].
  - rewrite decode_loop_ok in Hrun by done. by injection Hrun as <-.
  - apply not_Forall_Exists in Hsome; [| apply _].
    destruct (decode_loop_raises _ [] Hsome) as (c & _ & _ & Hraise).
    by rewrite Hraise in Hrun.
Qed.

(** X16. Decoding loses nothing: two strings that [decode_signals]
    decodes to the same list of timings are the same string. *)
Theorem decode_signals_injective (s1 s2 : string) (decoded : list Z) :
  decode_signals s1 = Ok decoded →
  decode_signals s2 = Ok decoded →
  s1 = s2.
Proof.
  intros H1 H2.
  apply decode_signals_ok_inv in H1 as [Hb1 ->].
  apply decode_signals_ok_inv in H2 as [Hb2 Heq].
  apply list_ascii_of_string_inj.
  revert Hb1 Hb2 Heq.
  generalize (list_ascii_of_string s1) (list_ascii_of_string s2).
  induction l as [|c1 l1 IH]; intros [|c2 l2] Hb1 Hb2 Heq; try done.
  apply Forall_cons_1 in Hb1 as [Hc1 Hb1]. apply Forall_cons_1 in Hb2 as [Hc2 Hb2].
  rewrite !fmap_cons in Heq. injection Heq as Hc Hl.
  f_equal; [by apply timing_of_inj | by apply IH].
Qed.

Lemma decode_signals_injective_witness : "012"%string = "012"%string.
Proof.
  exact (decode_signals_injective "012" "012" [20; 30; 60] eq_refl eq_refl).
Defined.

End DecodeMore.

Module DecodePathMore.
Import Path.

(** [decode_path] as a filter of the positions of the string. *)
Lemma decode_path_filter (s : string) :
  decode_path s
  = filter (λ i, list_ascii_of_string s !! i = Some "1"%char)
      (seq 0 (length (list_ascii_of_string s))).
Proof. unfold decode_path, enumerate. apply DecodeFacts.decode_path_bits. Qed.

Lemma decode_path_eq_iff (s1 s2 : string) :
  decode_path s1 = decode_path s2 ↔
  ∀ i : nat, list_ascii_of_string s1 !! i = Some "1"%char ↔
             list_ascii_of_string s2 !! i = Some "1"%char.
Proof.
  rewrite !decode_path_filter. split.
  - intros Heq i.
    assert (Hmem : ∀ (l : list ascii),
      l !! i = Some "1"%char ↔
      i ∈ filter (λ i, l !! i = Some "1"%char) (seq 0 (length l))).
    { intros l. rewrite list_elem_of_filter, elem_of_seq. split; [| tauto].
      intros Hi. split; [done |]. apply lookup_lt_Some in Hi. lia. }
    by rewrite !Hmem, Heq.
  - intros Hiff. apply filter_seq_same_support; [done | |];
      intros i Hi; by apply lookup_lt_Some in Hi.
Qed.

(** X17. The path of a concatenation is the path of the first part
    followed by the path of the second part shifted by the length of the
    first. *)
Theorem decode_path_app (s1 s2 : string) :
  decode_path (s1 +:+ s2)
  = decode_path s1 ++ ((λ i, String.length s1 + i)%nat <$> decode_path s2).
Proof.
  rewrite !decode_path_filter, list_ascii_of_string_app, length_app, seq_app.
  rewrite filter_app, <- (length_list_ascii_of_string s1). simpl. f_equal.
  - apply filter_ext_elem. intros i Hi. apply elem_of_seq in Hi.
    by rewrite lookup_app_l by lia.
  - rewrite <- (Nat.add_0_r (length (list_ascii_of_string s1))) at 1.
    rewrite <- fmap_add_seq, filter_fmap. f_equal.
    apply filter_ext_elem. intros i _. rewrite lookup_app_r by lia.
    by replace (length (list_ascii_of_string s1) + i
                - length (list_ascii_of_string s1))%nat with i by lia.
Qed.

(** X18. [decode_path] looks at nothing but where the character '1'
    stands: two strings, of any lengths and characters, decode to the
    same path exactly when they have '1' at the same positions. *)
Theorem decode_path_same_ones (s1 s2 : string) :
  decode_path s1 = decode_path s2 ↔
  ∀ i : nat, list_ascii_of_string s1 !! i = Some "1"%char ↔
             list_ascii_of_string s2 !! i = Some "1"%char.
Proof. apply decode_path_eq_iff. Qed.

(** X19. On measured bit-strings of one length the path determines the
    bit-string. *)
Theorem decode_path_injective (s1 s2 : string) :
  String.length s1 = String.length s2 →
  Forall binary_bit (list_ascii_of_string s1) →
  Forall binary_bit (list_ascii_of_string s2) →
  decode_path s1 = decode_path s2 →
  s1 = s2.
Proof.
  rewrite <- !length_list_ascii_of_string. intros Hlen Hb1 Hb2 Heq.
  apply list_ascii_of_string_inj.
  pose proof (proj1 (decode_path_eq_iff s1 s2) Heq) as Hones.
  apply (list_eq_same_length _ _ (length (list_ascii_of_string s1))); [done | done |].
  intros i c1 c2 _ Hc1 Hc2.
  pose proof (proj1 (Forall_lookup _ _) Hb1 i c1 Hc1) as [-> | ->];
  pose proof (proj1 (Forall_lookup _ _) Hb2 i c2 Hc2) as [-> | ->]; try done.
  - apply Hones in Hc2. congruence.
  - apply Hones in Hc1. congruence.
Qed.

Lemma decode_path_injective_witness : "101"%string = "101"%string.
Proof.
  apply (decode_path_injective "101" "101"); try reflexivity;
    repeat constructor; unfold binary_bit; tauto.
Defined.

(** X20. The path holds each position at most once, every position in
    it is below the length of the string, and it has as many entries as
    the string has '1' characters. *)
Theorem decode_path_bounds (binary_string : string) :
  NoDup (decode_path binary_string) ∧
  Forall (λ i, i < String.length binary_string)%nat (decode_path binary_string) ∧
  length (decode_path binary_string)
  = length (filter (λ c, c = "1"%char) (list_ascii_of_string binary_string)).
Proof.
  rewrite decode_path_filter, <- length_list_ascii_of_string.
  generalize (list_ascii_of_string binary_string). intros bits.
  split; [| split].
  - apply NoDup_filter, NoDup_seq.
  - apply Forall_forall. intros i Hi.
    apply list_elem_of_filter in Hi as [_ Hi]. apply elem_of_seq in Hi. lia.
  - induction bits as [|c bits IH] using rev_ind; [done |].
    rewrite length_app, seq_app, !filter_app, !length_app. simpl.
    rewrite (filter_ext_elem (λ i, (bits ++ [c]) !! i = Some "1"%char)
               (λ i, bits !! i = Some "1"%char) (seq 0 (length bits))).
    + rewrite IH. f_equal. rewrite !filter_cons, !filter_nil.
      rewrite list_lookup_middle by done.
      destruct (decide (c = "1"%char)) as [-> | Hc].
      * by rewrite decide_True.
      * rewrite decide_False; [done | congruence].
    + intros i Hi. apply elem_of_seq in Hi. by rewrite lookup_app_l by lia.
Qed.

End DecodePathMore.

(** ** Selection: when it fails, and when the order does not matter *)

Module SelectMore.
Import SelectFacts.

(** On a table that is not empty the selection succeeds with a key that
    carries the maximum count. *)
Lemma select_optimum_ok (d : counts) :
  d ≠ [] → NoDup (keys d) →
  ∃ k c, (k, c) ∈ d ∧ Forall (λ p, p.2 ≤ c) d ∧ select_optimum d = Ok k.
Proof.
  intros Hne Hnd. unfold select_optimum.
  destruct (py_max_spec (values d)) as (c & -> & Hin & Hmax).
  { unfold values. by destruct d. }
  cbn [bind]. unfold values in *.
  assert (Hle : Forall (λ p, p.2 ≤ c) d).
  { apply Forall_forall. intros p Hp.
    apply (proj1 (Forall_forall (λ y, y ≤ c) _) Hmax).
    apply list_elem_of_fmap. by exists p. }
  destruct (first_with_count_suffix d [] d c)
    as (l1 & k & l2 & Hsplit & _ & ->); [done | done | |].
  { apply Exists_exists. apply list_elem_of_fmap in Hin as (p & -> & Hp).
    by exists p. }
  cbn [bind]. exists k, c. split; [| done].
  rewrite Hsplit. apply elem_of_app. right. by left.
Qed.

(** X21. On a frequency table (distinct keys) the selection fails
    exactly when the table is empty, and then with the [ValueError] of
    [max]: the loop always finds a key, so the selected name is never
    unbound and no key is ever missing. *)
Theorem select_optimum_fails_iff_empty (optimization_result : counts) :
  NoDup (keys optimization_result) →
  ((∃ e, select_optimum optimization_result = Raise e) ↔ optimization_result = []) ∧
  (∀ e, select_optimum optimization_result = Raise e →
        e = ValueError "max() arg is an empty sequence").
Proof.
  intros Hnd. destruct optimization_result as [|p d].
  - split; [split; [done | by eexists] |]. intros e He. by injection He.
  - destruct (select_optimum_ok (p :: d)) as (k & c & _ & _ & Hrun); [done | done |].
    rewrite Hrun. split; [split; [by intros [e ?] | done] | done].
Qed.

Lemma select_optimum_fails_iff_empty_witness :
  (∃ e, select_optimum [] = Raise e) ↔ @nil (string * Z) = [].
Proof.
  apply (select_optimum_fails_iff_empty []). constructor.
Defined.

(** X22. Ties are the only way the order of the table matters: when one
    key alone carries the maximum count, every reordering of the table
    selects the same key. *)
Theorem select_optimum_unique_maximum (d1 d2 : counts) :
  d1 ≡ₚ d2 →
  NoDup (keys d1) →
  (∀ p q, p ∈ d1 → q ∈ d1 →
     Forall (λ r, r.2 ≤ p.2) d1 → Forall (λ r, r.2 ≤ q.2) d1 → p = q) →
  select_optimum d1 = select_optimum d2.
Proof.
  intros Hperm Hnd Huniq.
  assert (Hnd2 : NoDup (keys d2)).
  { unfold keys in *. by rewrite <- Hperm. }
  destruct d1 as [|p d1].
  { apply Permutation_nil_l in Hperm. by subst. }
  assert (Hne2 : d2 ≠ []).
  { intros ->. by apply Permutation_nil_r in Hperm. }
  destruct (select_optimum_ok (p :: d1)) as (k1 & c1 & Hin1 & Hmax1 & ->);
    [done | done |].
  destruct (select_optimum_ok d2) as (k2 & c2 & Hin2 & Hmax2 & ->); [done | done |].
  rewrite <- Hperm in Hin2, Hmax2.
  by injection (Huniq (k1, c1) (k2, c2) Hin1 Hin2 Hmax1 Hmax2) as -> _.
Qed.

Lemma select_optimum_unique_maximum_witness :
  select_optimum [("000"%string, 3); ("101"%string, 7); ("111"%string, 5)]
  = select_optimum [("111"%string, 5); ("000"%string, 3); ("101"%string, 7)].
Proof.
  apply (select_optimum_unique_maximum
           [("000"%string, 3); ("101"%string, 7); ("111"%string, 5)]
           [("111"%string, 5); ("000"%string, 3); ("101"%string, 7)]).
  - symmetry.
    apply (Permutation_cons_append [("000"%string, 3); ("101"%string, 7)]
             ("111"%string, 5)).
  - unfold keys. simpl. compute_done.
  - intros p q Hp Hq Hmp Hmq.
    assert (Hmax : ∀ r, r ∈ [("000"%string, 3); ("101"%string, 7); ("111"%string, 5)] →
              Forall (λ x : string * Z, x.2 ≤ r.2)
                [("000"%string, 3); ("101"%string, 7); ("111"%string, 5)] →
              r = ("101"%string, 7)).
    { intros r Hr Hm. apply Forall_cons_1 in Hm as [_ Hm].
      apply Forall_cons_1 in Hm as [H7 _]. simpl in H7.
      apply elem_of_cons in Hr as [-> | Hr]; [simpl in H7; lia |].
      apply elem_of_cons in Hr as [-> | Hr]; [done |].
      apply elem_of_cons in Hr as [-> | Hr]; [simpl in H7; lia |].
      by apply elem_of_nil in Hr. }
    by rewrite (Hmax p Hp Hmp), (Hmax q Hq Hmq).
Defined.

End SelectMore.

(** ** The two scripts end to end *)

Module MainFacts.

(** X23. The signal script, for any simulator: if the frequency table
    it returns is not empty, has distinct keys, and its keys are
    bit-strings, the script selects a key [k] carrying the maximum count
    and prints, without raising, the timings of [k] bit by bit: 30 for
    each '1' and 20 for each '0' (never 60). *)
Theorem signal_main_decodes_most_frequent {M : Machine}
    (simulate : QuantumCircuit → counts) (optimization_result : counts) :
  Signal.qaoa_traffic_optimization simulate [50; 40; 10] [30; 60; 20]
    [false; true; false] 1 = Ok optimization_result →
  optimization_result ≠ [] →
  NoDup (keys optimization_result) →
  Forall (λ k, Forall binary_bit (list_ascii_of_string k))
    (keys optimization_result) →
  ∃ k c,
    (k, c) ∈ optimization_result ∧
    Forall (λ p, p.2 ≤ c) optimization_result ∧
    select_optimum optimization_result = Ok k ∧
    Signal.main simulate
    = Ok ((λ b, if Ascii.eqb b "1" then 30 else 20) <$> list_ascii_of_string k).
Proof.
  intros Hrun Hne Hnd Hbits. unfold Signal.main. rewrite Hrun. cbn [bind].
  destruct (SelectMore.select_optimum_ok optimization_result Hne Hnd)
    as (k & c & Hin & Hmax & ->).
  cbn [bind]. exists k, c. split; [done |]. split; [done |]. split; [done |].
  assert (Hk : Forall binary_bit (list_ascii_of_string k)).
  { apply (proj1 (Forall_forall _ _) Hbits). unfold keys.
    apply list_elem_of_fmap. by exists (k, c). }
  unfold Signal.decode_signals. by rewrite (DecodeMore.decode_loop_binary _ Hk).
Qed.

Lemma signal_main_decodes_most_frequent_witness :
  ∃ k c,
    (k, c) ∈ [("101"%string, 13); ("000"%string, 3)] ∧
    Forall (λ p, p.2 ≤ c) [("101"%string, 13); ("000"%string, 3)] ∧
    select_optimum [("101"%string, 13); ("000"%string, 3)] = Ok k ∧
    Signal.main (M := workstation)
      (λ qc, [("101"%string, Z.of_nat (length (data qc)));
              ("000"%string, Z.of_nat (num_qubits qc))])
    = Ok ((λ b, if Ascii.eqb b "1" then 30 else 20) <$> list_ascii_of_string k).
Proof.
  apply (signal_main_decodes_most_frequent (M := workstation)
           (λ qc, [("101"%string, Z.of_nat (length (data qc)));
                   ("000"%string, Z.of_nat (num_qubits qc))])).
  - vm_compute. reflexivity.
  - discriminate.
  - unfold keys. simpl. compute_done.
  - repeat constructor; unfold binary_bit; tauto.
Defined.

(** X24. The path script, for any simulator: if the frequency table it
    returns is not empty and has distinct keys, the script never raises,
    whatever characters the keys hold; it prints the path decoded from a
    key [k] carrying the maximum count, and every position of that path
    is below the length of [k]. *)
Theorem path_main_decodes_most_frequent {M : Machine}
    (simulate : QuantumCircuit → counts) (optimization_result : counts) :
  Path.qaoa_path_optimization simulate 0 2 [1; 0; 0] [30; 60; 20]
    [false; true; false] 1 = Ok optimization_result →
  optimization_result ≠ [] →
  NoDup (keys optimization_result) →
  ∃ k c,
    (k, c) ∈ optimization_result ∧
    Forall (λ p, p.2 ≤ c) optimization_result ∧
    Path.main simulate = Ok (Path.decode_path k) ∧
    Forall (λ i, i < String.length k)%nat (Path.decode_path k).
Proof.
  intros Hrun Hne Hnd. unfold Path.main. rewrite Hrun. cbn [bind].
  destruct (SelectMore.select_optimum_ok optimization_result Hne Hnd)
    as (k & c & Hin & Hmax & ->).
  cbn [bind]. exists k, c. split; [done |]. split; [done |]. split; [done |].
  rewrite DecodePathMore.decode_path_filter, <- length_list_ascii_of_string.
  apply Forall_forall. intros i Hi.
  apply list_elem_of_filter in Hi as [_ Hi]. apply elem_of_seq in Hi. lia.
Qed.

Lemma path_main_decodes_most_frequent_witness :
  ∃ k c,
    (k, c) ∈ [("1x1"%string, 600); ("000"%string, 424)] ∧
    Forall (λ p, p.2 ≤ c) [("1x1"%string, 600); ("000"%string, 424)] ∧
    Path.main (M := workstation) (λ _, [("1x1"%string, 600); ("000"%string, 424)])
    = Ok (Path.decode_path k) ∧
    Forall (λ i, i < String.length k)%nat (Path.decode_path k).
Proof.
  apply (path_main_decodes_most_frequent (M := workstation)
           (λ _, [("1x1"%string, 600); ("000"%string, 424)])).
  - vm_compute. reflexivity.
  - discriminate.
  - unfold keys. simpl. compute_done.
Defined.

End MainFacts.

(** ** The two optimization functions: when they return *)

Module OptimizationBounds.

Lemma replicate_square (n : nat) : square n (replicate n (replicate n pzero)).
Proof. apply replicate_represents. Qed.

Lemma iadd_square (n : nat) (m m' : matrix) (i j : nat) (v : number) :
  square n m → iadd m i j v = Ok m' → square n m'.
Proof.
  intros [Hlen Hrows] Hrun. unfold iadd, getitem in Hrun.
  destruct (m !! i) as [row |] eqn:Hrow; [| done]. simpl in Hrun.
  destruct (row !! j) as [x |]; [| done]. cbn [bind] in Hrun.
  destruct (as_float v) as [y |]; [| done]. injection Hrun as <-. split.
  - by rewrite length_insert.
  - apply Forall_insert; [done |]. rewrite length_insert.
    by apply (Forall_lookup_1 (λ row, length row = n) m i row).
Qed.

Lemma square_diagonal (n : nat) (m : matrix) (i : nat) :
  square n m → (i < n)%nat → is_Some (entry m i i).
Proof.
  intros Hsq Hi. destruct (square_row n m i Hsq Hi) as (row & Hrow & Hlen).
  unfold entry. rewrite Hrow. apply lookup_lt_is_Some. lia.
Qed.

Lemma create_cost_hamiltonian_square {M : Machine} tf st ef (m : matrix) :
  Signal.create_cost_hamiltonian tf st ef = Ok m → square (2 ^ length tf) m.
Proof.
  unfold Signal.create_cost_hamiltonian.
  destruct (zeros (2 ^ length tf) (2 ^ length tf)) as [m0 | e] eqn:Hz; [| done].
  apply zeros_ok_inv in Hz as [_ ->]. cbn [bind].
  apply (for_each_preserves (square (2 ^ length tf))); [| apply replicate_square].
  intros t i t' Ht. unfold Signal.cost_step.
  destruct (getitem st i) as [s |]; [| done]. cbn [bind].
  destruct (getitem tf i) as [f |]; [| done]. cbn [bind].
  destruct (iadd t i i _) as [t1 |] eqn:H1; [| done]. cbn [bind].
  apply (iadd_square _ _ _ _ _ _ Ht) in H1.
  destruct (getitem ef i) as [[|] |]; [| | done]; cbn [bind].
  - by apply iadd_square.
  - by intros [= <-].
Qed.

Lemma create_path_cost_hamiltonian_square {M : Machine} start end_node tf st ef
    (m : matrix) :
  Path.create_path_cost_hamiltonian start end_node tf st ef = Ok m →
  square (2 ^ length tf) m.
Proof.
  unfold Path.create_path_cost_hamiltonian.
  destruct (zeros (2 ^ length tf) (2 ^ length tf)) as [m0 | e] eqn:Hz; [| done].
  apply zeros_ok_inv in Hz as [_ ->]. cbn [bind].
  apply (for_each_preserves (square (2 ^ length tf))); [| apply replicate_square].
  intros t i t' Ht. unfold Path.start_step.
  case_bool_decide; [| by intros [= <-]].
  destruct (getitem st i) as [s |]; [| done]. cbn [bind].
  destruct (getitem tf i) as [f |]; [| done]. cbn [bind].
  destruct (iadd t i i _) as [t1 |] eqn:H1; [| done]. cbn [bind].
  apply (iadd_square _ _ _ _ _ _ Ht) in H1.
  apply (for_each_preserves (square (2 ^ length tf))); [| done].
  intros u j u' Hu. unfold Path.travel_step.
  case_bool_decide; [| by intros [= <-]].
  destruct (getitem Path.distances i) as [row |]; [| done]. cbn [bind].
  destruct (getitem row j) as [d |]; [| done]. cbn [bind].
  destruct (Path.calculate_travel_time _ _) as [x |]; [| done]. cbn [bind].
  by apply iadd_square.
Qed.

(** With a qubit, the circuit stage never fails on a 2^n × 2^n matrix. *)
Lemma qaoa_circuit_on_square (n p : nat) (m : matrix) :
  (0 < n)%nat → square (2 ^ n) m → ∃ qc, qaoa_circuit n m p = Ok qc.
Proof.
  intros Hn Hsq. eexists.
  apply (CircuitFacts.qaoa_circuit_shape n p m (λ i, default pzero (entry m i i)));
    [done |].
  intros i Hi.
  by destruct (square_diagonal _ m i Hsq (lt_pow2 _ _ Hi)) as [x ->].
Qed.

(** The circuit stage after a cost matrix that was built. *)
Lemma circuit_stage (simulate : QuantumCircuit → counts) (n p : nat) (m : matrix) :
  square (2 ^ n) m →
  ((∃ d, (let* qc := qaoa_circuit n m p in Ok (simulate qc)) = Ok d) ↔ (0 < n)%nat) ∧
  (∀ e, (let* qc := qaoa_circuit n m p in Ok (simulate qc)) = Raise e →
        e = CircuitError).
Proof.
  intros Hsq. destruct n as [|n].
  - rewrite CircuitFacts.qaoa_circuit_no_qubit. cbn [bind].
    split; [split; [by intros [d ?] | lia] |]. by intros e [= <-].
  - destruct (qaoa_circuit_on_square (S n) p m) as [qc ->]; [lia | done |].
    cbn [bind]. split; [split; [lia | by eexists] | done].
Qed.

(** X25. [qaoa_traffic_optimization] returns the simulator's table
    exactly when there is at least one intersection and
    [create_cost_hamiltonian] returns (the array is allocated,
    [signal_timings] and [emergency_flags] are at least as long as
    [traffic_flows], every product converts to a float): with a qubit,
    building the circuit never fails, for any number of layers. What it
    raises is the exception of the allocation, [IndexError],
    [OverflowError], or the [CircuitError] of a circuit without
    qubits. *)
Theorem qaoa_traffic_optimization_returns_iff {M : Machine}
    (simulate : QuantumCircuit → counts)
    (traffic_flows signal_timings : list Z) (emergency_flags : list bool) (p : nat) :
  ((∃ d, Signal.qaoa_traffic_optimization simulate traffic_flows signal_timings
           emergency_flags p = Ok d)
   ↔ (0 < length traffic_flows)%nat ∧
     np_zeros_error (2 ^ length traffic_flows) (2 ^ length traffic_flows) = None ∧
     (length traffic_flows ≤ length signal_timings ∧
      length traffic_flows ≤ length emergency_flags)%nat ∧
     ∀ i, (i < length traffic_flows)%nat →
          fits_float64 (nth i signal_timings 0 * nth i traffic_flows 0)) ∧
  (∀ e, Signal.qaoa_traffic_optimization simulate traffic_flows signal_timings
          emergency_flags p = Raise e →
        e = IndexError ∨ e = OverflowError ∨ e = CircuitError ∨
        np_zeros_error (2 ^ length traffic_flows) (2 ^ length traffic_flows) = Some e).
Proof.
  unfold Signal.qaoa_traffic_optimization, Signal.qaoa_traffic_circuit.
  pose proof (SignalBounds.create_cost_hamiltonian_ok_iff traffic_flows
                signal_timings emergency_flags) as Hiff.
  pose proof (SignalBounds.create_cost_hamiltonian_fails_among traffic_flows
                signal_timings emergency_flags) as Hamong.
  destruct (Signal.create_cost_hamiltonian traffic_flows signal_timings
              emergency_flags) as [m | e0] eqn:Hm; cbn [bind].
  - destruct (circuit_stage simulate (length traffic_flows) p m) as [Hok Herr].
    { by eapply create_cost_hamiltonian_square. }
    split.
    + rewrite Hok. split; [| tauto]. intros Hn. split; [done |].
      apply Hiff. by exists m.
    + intros e He. apply Herr in He. auto.
  - simpl in Hamong. split; [split |].
    + by intros [d ?].
    + intros (_ & Hcond). apply Hiff in Hcond as [m' ?]. done.
    + intros e [= <-]. tauto.
Qed.

(** X26. [qaoa_path_optimization] returns the simulator's table exactly
    when there is at least one intersection and
    [create_path_cost_hamiltonian] returns: the array is allocated and,
    for a start node inside [0, n), [n ≤ 3], [signal_timings] reaches the
    start node and the waiting time there converts to a float. What it
    raises is the exception of the allocation, [IndexError],
    [OverflowError], or the [CircuitError] of a circuit without
    qubits. *)
Theorem qaoa_path_optimization_returns_iff {M : Machine}
    (simulate : QuantumCircuit → counts)
    (start end_node : Z) (traffic_flows signal_timings : list Z)
    (emergency_flags : list bool) (p : nat) :
  ((∃ d, Path.qaoa_path_optimization simulate start end_node traffic_flows
           signal_timings emergency_flags p = Ok d)
   ↔ (0 < length traffic_flows)%nat ∧
     np_zeros_error (2 ^ length traffic_flows) (2 ^ length traffic_flows) = None ∧
     (start < 0 ∨ Z.of_nat (length traffic_flows) ≤ start ∨
      ((length traffic_flows ≤ 3)%nat ∧ start < Z.of_nat (length signal_timings) ∧
       fits_float64 (nth (Z.to_nat start) signal_timings 0
                     * nth (Z.to_nat start) traffic_flows 0)))) ∧
  (∀ e, Path.qaoa_path_optimization simulate start end_node traffic_flows
          signal_timings emergency_flags p = Raise e →
        e = IndexError ∨ e = OverflowError ∨ e = CircuitError ∨
        np_zeros_error (2 ^ length traffic_flows) (2 ^ length traffic_flows) = Some e).
Proof.
  unfold Path.qaoa_path_optimization, Path.qaoa_path_circuit.
  assert (Hiff : (∃ m, Path.create_path_cost_hamiltonian start end_node
                         traffic_flows signal_timings emergency_flags = Ok m)
    ↔ np_zeros_error (2 ^ length traffic_flows) (2 ^ length traffic_flows) = None ∧
      (start < 0 ∨ Z.of_nat (length traffic_flows) ≤ start ∨
       ((length traffic_flows ≤ 3)%nat ∧ start < Z.of_nat (length signal_timings) ∧
        fits_float64 (nth (Z.to_nat start) signal_timings 0
                      * nth (Z.to_nat start) traffic_flows 0)))).
  { destruct (decide (0 ≤ start < Z.of_nat (length traffic_flows))) as [Hin | Hout].
    - rewrite (PathBounds.create_path_cost_hamiltonian_returns_iff_start_inside
                 start end_node traffic_flows signal_timings emergency_flags Hin).
      split; [tauto |]. intros (? & [? | [? | ?]]); [lia | lia | tauto].
    - rewrite PathBounds.create_path_cost_hamiltonian_zero_outside by lia.
      unfold zeros.
      destruct (np_zeros_error (2 ^ length traffic_flows) (2 ^ length traffic_flows)).
      + split; [by intros [m ?] | by intros [? _]].
      + split; [intros _; split; [done | lia] | intros _; by eexists]. }
  pose proof (PathBounds.create_path_cost_hamiltonian_fails_among start end_node
                traffic_flows signal_timings emergency_flags) as Hamong.
  destruct (Path.create_path_cost_hamiltonian start end_node traffic_flows
              signal_timings emergency_flags) as [m | e0] eqn:Hm; cbn [bind].
  - destruct (circuit_stage simulate (length traffic_flows) p m) as [Hok Herr].
    { by eapply create_path_cost_hamiltonian_square. }
    split.
    + rewrite Hok. split; [| tauto]. intros Hn. split; [done |].
      apply Hiff. by exists m.
    + intros e He. apply Herr in He. auto.
  - simpl in Hamong. split; [split |].
    + by intros [d ?].
    + intros (_ & Hcond). apply Hiff in Hcond as [m' ?]. done.
    + intros e [= <-]. tauto.
Qed.

End OptimizationBounds.
